(** * statsd-go: the aggregation engine of [main.go]

    A shallow embedding of the decoder ([handleMessage]), of the consumer
    loop ([monitor]) and of the flush ([submit]) of the daemon, followed by
    the properties of the specification that they settle.

    Conventions.
    - Go strings are byte strings: [string] (of [ascii] bytes).  Both regular
      expressions of [handleMessage] only keep or match ASCII bytes, so the
      byte-wise reading coincides with Go's rune-wise one.
    - [int] is the 64-bit integer of the usual targets: a [Z] reduced by
      [wrap64] after each arithmetic operation.
    - [float32] and [float64] are [spec_float] values computed with the
      operations of [SpecFloat] at precision 24/128 and 53/1024 (round to
      nearest, ties to even).
    - The three global maps are [gmap string _]; Go ranges over a map in an
      unspecified order, here the order of [map_to_list].
    - Of [submit] the model keeps what is written to [buffer], as structured
      lines; the connection to the line sink and the submissions to the
      second sink repeat the same names and values and are left out. *)

From Stdlib Require Import ZArith QArith String Ascii List Lia.
From Stdlib Require Import Permutation Sorted.
From Stdlib Require Import Floats.SpecFloat.
From stdpp Require Import gmap strings list fin_maps.

Local Open Scope Z_scope.

(** ** Bytes and character classes *)

Definition byte_in (lo hi c : ascii) : bool :=
  ((N_of_ascii lo <=? N_of_ascii c) && (N_of_ascii c <=? N_of_ascii hi))%N.

Definition is_digit (c : ascii) : bool := byte_in "0" "9" c.

Definition is_alnum (c : ascii) : bool :=
  byte_in "a" "z" c || byte_in "A" "Z" c || is_digit c.

(** The class of [sanitizeRegexp] without its negation:
    [a-zA-Z0-9\-_\.:\|@]. *)
Definition is_allowed (c : ascii) : bool :=
  is_alnum c || Ascii.eqb c "-" || Ascii.eqb c "_" || Ascii.eqb c "."
  || Ascii.eqb c ":" || Ascii.eqb c "|" || Ascii.eqb c "@".

(** [[a-zA-Z0-9_\.]], the class of the bucket name. *)
Definition is_name (c : ascii) : bool :=
  is_alnum c || Ascii.eqb c "_" || Ascii.eqb c ".".

(** [[0-9\.]], the class of the value and of the sample rate. *)
Definition is_num (c : ascii) : bool := is_digit c || Ascii.eqb c ".".

(** ** The two regular expressions *)

(** [sanitizeRegexp.ReplaceAllString(s, "")]: every byte outside the class
    is removed. *)
Fixpoint sanitize (s : string) : string :=
  match s with
  | EmptyString => EmptyString
  | String c s' => if is_allowed c then String c (sanitize s') else sanitize s'
  end.

(** The longest prefix of [s] in the class [p], and what follows it. *)
Fixpoint span (p : ascii -> bool) (s : string) : string * string :=
  match s with
  | EmptyString => (EmptyString, EmptyString)
  | String c s' =>
      if p c then let '(a, b) := span p s' in (String c a, b)
      else (EmptyString, s)
  end.

(** [[class]+].  In [packetRegexp] each such repetition is followed by a
    literal outside its class (or by the end of the pattern), so the greedy
    longest run is the only length at which the rest can match. *)
Definition plus (p : ascii -> bool) (s : string) : option (string * string) :=
  match span p s with
  | (EmptyString, _) => None
  | (a, b) => Some (a, b)
  end.

(** One literal byte. *)
Definition lit (c : ascii) (s : string) : option string :=
  match s with
  | String c' s' => if Ascii.eqb c c' then Some s' else None
  | EmptyString => None
  end.

(** [(c|ms|g)], alternatives tried from left to right. *)
Definition alt_type (s : string) : option (string * string) :=
  match s with
  | String "c" r => Some ("c", r)
  | String "m" (String "s" r) => Some ("ms", r)
  | String "g" r => Some ("g", r)
  | _ => None
  end.

(** [(\|@([0-9\.]+))?]: the text of group 5 and the rest, when the group
    takes part in the match. *)
Definition opt_rate (s : string) : option (string * string) :=
  s1 ← lit "|" s; s2 ← lit "@" s1; plus is_num s2.

(** One element of [FindAllStringSubmatch]: the match and its five groups
    ([item[0]] to [item[5]]); a group that takes no part is [""]. *)
Record submatch := Submatch {
  item0 : string; item1 : string; item2 : string;
  item3 : string; item4 : string; item5 : string
}.

(** A match of [packetRegexp] that starts at the first byte of [s]:
    [([a-zA-Z0-9_\.]+):(\-?[0-9\.]+)\|(c|ms|g)(\|@([0-9\.]+))?].
    Returns the groups and the text after the match. *)
Definition match_here (s : string) : option (submatch * string) :=
  '(name, s1) ← plus is_name s;
  s2 ← lit ":" s1;
  let '(sign, s3) :=
    match lit "-" s2 with Some r => ("-", r) | None => ("", s2) end in
  '(num, s4) ← plus is_num s3;
  s5 ← lit "|" s4;
  '(ty, s6) ← alt_type s5;
  let '(g4, g5, s7) :=
    match opt_rate s6 with
    | Some (r, rest) => ("|@" +:+ r, r, rest)
    | None => ("", "", s6)
    end in
  let value := sign +:+ num in
  Some (Submatch (name +:+ ":" +:+ value +:+ "|" +:+ ty +:+ g4)
                 name value ty g4 g5, s7).

(** [packetRegexp.FindAllStringSubmatch(s, -1)]: successive non-overlapping
    matches, each the leftmost one after the end of the previous match.
    [skip] counts the bytes of the current match still to be passed. *)
Fixpoint find_all_from (skip : nat) (s : string) : list submatch :=
  match s with
  | EmptyString => []
  | String _ s' =>
      match skip with
      | S k => find_all_from k s'
      | O =>
          match match_here s with
          | Some (it, _) =>
              it :: find_all_from (Nat.pred (String.length (item0 it))) s'
          | None => find_all_from 0 s'
          end
      end
  end.

Definition FindAllStringSubmatch (s : string) : list submatch :=
  find_all_from 0 s.

(** ** Machine integers and floating-point numbers *)

(** Reduction of a mathematical integer to the two's complement [int]. *)
Definition wrap64 (z : Z) : Z := (z + 2 ^ 63) mod 2 ^ 64 - 2 ^ 63.

Definition in_int64 (z : Z) : bool := (- 2 ^ 63 <=? z) && (z <? 2 ^ 63).

Abbreviation float := spec_float.

Module F32.
Definition prec : Z := 24.
Definition emax : Z := 128.
Definition of_Z (z : Z) : float := binary_normalize prec emax z 0 false.
Definition mul : float -> float -> float := SFmul prec emax.
Definition div : float -> float -> float := SFdiv prec emax.
End F32.

Module F64.
Definition prec : Z := 53.
Definition emax : Z := 1024.
Definition of_Z (z : Z) : float := binary_normalize prec emax z 0 false.
Definition add : float -> float -> float := SFadd prec emax.
Definition mul : float -> float -> float := SFmul prec emax.
Definition div : float -> float -> float := SFdiv prec emax.
Definition zero : float := S754_zero false.
Definition ltb : float -> float -> bool := SFltb.
Definition is_nan (x : float) : bool :=
  match x with S754_nan => true | _ => false end.
End F64.

(** The integral part of a float, rounded toward zero; [None] for a NaN or
    an infinity. *)
Definition trunc_float (x : float) : option Z :=
  match x with
  | S754_zero _ => Some 0
  | S754_finite s m e =>
      let a := if 0 <=? e then Z.shiftl (Zpos m) e
               else Z.shiftr (Zpos m) (- e) in
      Some (if s then - a else a)
  | _ => None
  end.

(** ** strconv *)

Definition digit_val (c : ascii) : Z := Z.of_N (N_of_ascii c) - 48.

(** The value of a string of decimal digits; [None] when a byte is not a
    digit. *)
Fixpoint digits_val (acc : Z) (s : string) : option Z :=
  match s with
  | EmptyString => Some acc
  | String c s' =>
      if is_digit c then digits_val (10 * acc + digit_val c) s' else None
  end.

(** [strconv.Atoi]: the value and whether an error is returned.  A syntax
    error gives 0, a range error the nearest bound of [int]. *)
Definition Atoi (s : string) : Z * bool :=
  let '(neg, body) :=
    match s with
    | String "-" r => (true, r)
    | String "+" r => (false, r)
    | _ => (false, s)
    end in
  match body with
  | EmptyString => (0, true)
  | _ =>
      match digits_val 0 body with
      | None => (0, true)
      | Some n =>
          if neg then (if 2 ^ 63 <? n then (- 2 ^ 63, true) else (- n, false))
          else (if 2 ^ 63 <=? n then (2 ^ 63 - 1, true) else (n, false))
      end
  end.

(** The mantissa scan of [strconv]'s [readFloat] on a decimal without
    exponent: digits with at most one dot and at least one digit.  Returns
    the digits read as an integer and the number of digits after the dot. *)
Fixpoint read_mantissa (sawdot sawdigits : bool) (mant : Z) (frac : nat)
    (s : string) : option (Z * nat) :=
  match s with
  | EmptyString => if sawdigits then Some (mant, frac) else None
  | String c s' =>
      if is_digit c then
        read_mantissa sawdot true (10 * mant + digit_val c)
                      (if sawdot then S frac else frac) s'
      else if Ascii.eqb c "." then
        if sawdot then None else read_mantissa true sawdigits mant frac s'
      else None
  end.

(** The float of the given format nearest to [mant / 10 ^ frac]. *)
Definition round_decimal (prec emax : Z) (neg : bool) (mant : Z) (frac : nat)
    : float :=
  match mant with
  | Zpos m =>
      SFdiv prec emax (S754_finite neg m 0)
            (S754_finite false (Z.to_pos (10 ^ Z.of_nat frac)) 0)
  | _ => S754_zero neg
  end.

(** [strconv.ParseFloat(s, bitSize)] on the texts that [packetRegexp] can
    capture (an optional sign, digits and dots): the float and whether an
    error is returned.  A syntax error gives 0; a value beyond the format
    gives an infinity and a range error.  Exponents, hexadecimal floats,
    underscores, "inf" and "nan" need bytes that the pattern never captures
    and are read as syntax errors here. *)
Definition ParseFloat (prec emax : Z) (s : string) : float * bool :=
  let '(neg, body) :=
    match s with
    | String "-" r => (true, r)
    | String "+" r => (false, r)
    | _ => (false, s)
    end in
  match read_mantissa false false 0 0 body with
  | None => (S754_zero false, true)
  | Some (mant, frac) =>
      let f := round_decimal prec emax neg mant frac in
      match f with
      | S754_infinity _ => (f, true)
      | _ => (f, false)
      end
  end.

(** [strings.HasPrefix] for a one-byte prefix, with the rest [s[1:]]. *)
Definition strip_prefix (c : ascii) (s : string) : option string := lit c s.

(** ** The decoder *)

Record Packet := mkPacket {
  Bucket : string;
  Value : string;
  Modifier : string;
  Sampling : float          (* float32 *)
}.

(** The body of the loop of [handleMessage] for one match. *)
Definition packet_of_item (item : submatch) : Packet :=
  let value :=
    if String.eqb (item3 item) "ms" then
      if snd (ParseFloat F32.prec F32.emax (item2 item)) then "0"
      else item2 item
    else item2 item in
  let '(rate, err) := ParseFloat F32.prec F32.emax (item5 item) in
  let sampleRate := if err then F32.of_Z 1 else rate in
  {| Bucket := item1 item; Value := value; Modifier := item3 item;
     Sampling := sampleRate |}.

(** [handleMessage]: the packets sent on [In], in order, for one datagram. *)
Definition handleMessage (buf : string) : list Packet :=
  map packet_of_item (FindAllStringSubmatch (sanitize buf)).

(** ** The aggregate store and the consumer loop *)

(** The global maps [counters], [timers] and [gauges]. *)
Record Store := mkStore {
  counters : gmap string Z;
  timers : gmap string (list float);
  gauges : gmap string Z
}.

Definition empty_store : Store := mkStore ∅ ∅ ∅.

(** The flags that [submit] reads. *)
Record Config := mkConfig {
  flushInterval : Z;
  percentThreshold : Z;
  statsPrefix : string;
  countersPrefix : string;
  gaugesPrefix : string;
  timersPrefix : string
}.

Definition default_config : Config :=
  mkConfig 10 90 "stats." "stats.counters." "stats.gauges." "stats.timers.".

Section Monitor.

(** Go leaves the result of converting a float that [int] cannot represent
    (NaN, an infinity, a value out of range) to the implementation;
    [int_indefinite] is that result (the least [int] on amd64). *)
Variable int_indefinite : Z.

(** The conversion [int(x)] of a float. *)
Definition int_of_float (x : float) : Z :=
  match trunc_float x with
  | Some z => if in_int64 z then z else int_indefinite
  | None => int_indefinite
  end.

(** [int(float32(floatValue) * (1 / s.Sampling))], the increment of a
    counter for the text [value] and the sample rate [sampling]. *)
Definition counter_increment (value : string) (sampling : float) : Z :=
  let floatValue := fst (ParseFloat F32.prec F32.emax value) in
  int_of_float (F32.mul floatValue (F32.div (F32.of_Z 1) sampling)).

(** [m[k]] when the key may be absent: the zero value. *)
Definition at_key {A} (zero : A) (m : gmap string A) (k : string) : A :=
  default zero (m !! k).

(** [if _, ok := m[k]; !ok { m[k] = zero }]. *)
Definition ensure_key {A} (zero : A) (m : gmap string A) (k : string)
    : gmap string A :=
  match m !! k with
  | Some _ => m
  | None => <[k := zero]> m
  end.

(** The [case s := <-In] branch of [monitor]. *)
Definition apply_packet (s : Packet) (st : Store) : Store :=
  if String.eqb (Modifier s) "ms" then
    let ts := ensure_key [] (timers st) (Bucket s) in
    let floatValue := fst (ParseFloat F64.prec F64.emax (Value s)) in
    mkStore (counters st)
            (<[Bucket s := at_key [] ts (Bucket s) ++ [floatValue]]> ts)
            (gauges st)
  else if String.eqb (Modifier s) "g" then
    let gs := ensure_key 0 (gauges st) (Bucket s) in
    let cur := at_key 0 gs (Bucket s) in
    let new :=
      match strip_prefix "+" (Value s) with
      | Some rest => wrap64 (cur + fst (Atoi rest))
      | None =>
          match strip_prefix "-" (Value s) with
          | Some rest => wrap64 (cur - fst (Atoi rest))
          | None => fst (Atoi (Value s))
          end
      end in
    mkStore (counters st) (timers st) (<[Bucket s := new]> gs)
  else
    let cs := ensure_key 0 (counters st) (Bucket s) in
    let inc := counter_increment (Value s) (Sampling s) in
    mkStore (<[Bucket s := wrap64 (at_key 0 cs (Bucket s) + inc)]> cs)
            (timers st) (gauges st).

(** ** The flush *)

(** The argument printed by one [fmt.Fprintf] of [submit]. *)
Inductive metric_value :=
  | VInt (n : Z)
  | VFloat (x : float).

(** One line written to [buffer]: name, value and the time [now].  The
    value is kept as the number given to [fmt.Fprintf], before the verb
    formats it. *)
Record Line := mkLine {
  line_name : string;
  line_value : metric_value;
  line_time : Z
}.

(** The rate of a counter: [float64(c)] divided by
    [(float64(flushInterval) * float64(time.Second)) / float64(1e3)], where
    [time.Second] is 1e9 (nanoseconds). *)
Definition counter_rate (cfg : Config) (c : Z) : float :=
  F64.div (F64.of_Z c)
          (F64.div (F64.mul (F64.of_Z (flushInterval cfg))
                            (F64.of_Z 1000000000))
                   (F64.of_Z 1000)).

(** The order of [sort.Float64s]: [x < y], with NaN before the rest. *)
Definition float_less (x y : float) : bool :=
  F64.ltb x y || (F64.is_nan x && negb (F64.is_nan y)).

Fixpoint float_insert (x : float) (l : list float) : list float :=
  match l with
  | [] => [x]
  | y :: l' => if float_less x y then x :: l else y :: float_insert x l'
  end.

(** [sort.Float64s], as the insertion sort that the library runs on short
    slices; on longer ones the result can only differ in the relative order
    of elements that compare equal. *)
Definition Float64s (t : list float) : list float :=
  fold_left (fun acc x => float_insert x acc) t [].

(** [fmt]'s [%d] of an [int]. *)
Fixpoint pos_digits (fuel : nat) (n : Z) (acc : string) : string :=
  match fuel with
  | O => acc
  | S fuel' =>
      let acc' :=
        String (ascii_of_N (Z.to_N (48 + n mod 10))) acc in
      if n <? 10 then acc' else pos_digits fuel' (n / 10) acc'
  end.

Definition format_int (n : Z) : string :=
  if n <? 0 then String "-" (pos_digits 20 (- n) "")
  else pos_digits 20 n "".

(** The five values reported for one timer. *)
Record timer_stats := mkTimerStats {
  ts_mean : float;
  ts_max : float;
  ts_maxAtThreshold : float;
  ts_min : float;
  ts_count : Z
}.

(** [thresholdIndex = ((100 - *percentThreshold) / 100) * count]. *)
Definition thresholdIndex (cfg : Config) (count : Z) : Z :=
  wrap64 (Z.quot (wrap64 (100 - percentThreshold cfg)) 100 * count).

(** The loop [for i := 0; i < numInThreshold; i++ { sum += values[i] }]. *)
Definition float_sum (values : list float) : float :=
  fold_left F64.add values F64.zero.

(** The [len(t) > 0] branch of the timers loop up to the prints.  The slice
    expression [t[0:numInThreshold]] panics when [numInThreshold] is
    negative or beyond the capacity of [t]; between the length and the
    capacity it exposes the backing array, which is not tracked here: the
    result is [None] whenever [numInThreshold] is outside [0..len(t)]. *)
Definition timer_summary (cfg : Config) (t : list float)
    : option timer_stats :=
  let t := Float64s t in
  let min := hd F64.zero t in
  let max := List.last t F64.zero in
  let count := Z.of_nat (length t) in
  if 1 <? count then
    let numInThreshold := wrap64 (count - thresholdIndex cfg count) in
    if (0 <=? numInThreshold) && (numInThreshold <=? count) then
      let values := firstn (Z.to_nat numInThreshold) t in
      let sum := float_sum values in
      let mean := F64.div sum (F64.of_Z numInThreshold) in
      Some (mkTimerStats mean max max min count)
    else None
  else Some (mkTimerStats min max max min count).

(** The lines of a timer bucket without observations, all zero. *)
Definition zero_stats : timer_stats :=
  mkTimerStats F64.zero F64.zero F64.zero F64.zero 0.

(** The five [fmt.Fprintf] of one timer bucket. *)
Definition timer_lines (cfg : Config) (now : Z) (u : string)
    (r : timer_stats) : list Line :=
  let p := timersPrefix cfg +:+ u in
  [ mkLine (p +:+ ".mean") (VFloat (ts_mean r)) now;
    mkLine (p +:+ ".upper") (VFloat (ts_max r)) now;
    mkLine (p +:+ ".upper_" +:+ format_int (percentThreshold cfg))
           (VFloat (ts_maxAtThreshold r)) now;
    mkLine (p +:+ ".lower") (VFloat (ts_min r)) now;
    mkLine (p +:+ ".count") (VInt (ts_count r)) now ].

(** The state threaded through the three loops of [submit]: the lines
    written so far, [numStats] and the store. *)
Record flush_state := mkFlush {
  fl_buffer : list Line;
  fl_numStats : Z;
  fl_store : Store
}.

(** The two [fmt.Fprintf] of one counter bucket: the rate and the count. *)
Definition counter_lines (cfg : Config) (now : Z) (kv : string * Z)
    : list Line :=
  [ mkLine (statsPrefix cfg +:+ kv.1) (VFloat (counter_rate cfg kv.2)) now;
    mkLine (countersPrefix cfg +:+ kv.1) (VInt kv.2) now ].

(** The [fmt.Fprintf] of one gauge bucket ([value := int64(g)]). *)
Definition gauge_lines (cfg : Config) (now : Z) (kv : string * Z)
    : list Line :=
  [ mkLine (gaugesPrefix cfg +:+ kv.1) (VInt kv.2) now ].

(** The body of [for s, c := range counters]. *)
Definition flush_counter (cfg : Config) (now : Z) (fs : flush_state)
    (kv : string * Z) : flush_state :=
  let st := fl_store fs in
  mkFlush (fl_buffer fs ++ counter_lines cfg now kv)
          (fl_numStats fs + 1)
          (mkStore (<[kv.1 := 0]> (counters st)) (timers st) (gauges st)).

(** The body of [for i, g := range gauges]. *)
Definition flush_gauge (cfg : Config) (now : Z) (fs : flush_state)
    (kv : string * Z) : flush_state :=
  mkFlush (fl_buffer fs ++ gauge_lines cfg now kv)
          (fl_numStats fs + 1)
          (fl_store fs).

(** The body of [for u, t := range timers]; [None] when it panics. *)
Definition flush_timer (cfg : Config) (now : Z) (fs : flush_state)
    (kv : string * list float) : option flush_state :=
  let '(u, t) := kv in
  let st := fl_store fs in
  match t with
  | _ :: _ =>
      r ← timer_summary cfg t;
      Some (mkFlush
        (fl_buffer fs ++ timer_lines cfg now u r)
        (fl_numStats fs + 1)
        (mkStore (counters st) (<[u := []]> (timers st)) (gauges st)))
  | [] =>
      Some (mkFlush
        (fl_buffer fs ++ timer_lines cfg now u zero_stats)
        (fl_numStats fs + 1)
        st)
  end.

(** A loop whose body may panic. *)
Fixpoint fold_panic {A B} (f : A -> B -> option A) (l : list B) (a : A)
    : option A :=
  match l with
  | [] => Some a
  | b :: l' => a' ← f a b; fold_panic f l' a'
  end.

(** [submit], from [numStats := 0] on: the lines given to the line sink
    and the store after the flush, or [None] when the flush panics.  Each
    loop ranges over the entries that its map holds when it starts; a body
    only assigns the key that it is visiting. *)
Definition submit (cfg : Config) (now : Z) (st : Store)
    : option (list Line * Store) :=
  let fs0 := mkFlush [] 0 st in
  let fs1 := fold_left (flush_counter cfg now) (map_to_list (counters st)) fs0 in
  let fs2 := fold_left (flush_gauge cfg now) (map_to_list (gauges st)) fs1 in
  fs3 ← fold_panic (flush_timer cfg now) (map_to_list (timers st)) fs2;
  Some (fl_buffer fs3 ++
          [ mkLine (statsPrefix cfg +:+ "statsd.numStats")
                   (VInt (fl_numStats fs3)) now ],
        fl_store fs3).

(** What [monitor] selects: a tick of the flush timer (at time [now]) or a
    packet from [In]. *)
Inductive event :=
  | Tick (now : Z)
  | Recv (s : Packet).

(** One iteration of the loop of [monitor]: the store and the lines of the
    flush, if one ran. *)
Definition monitor_step (cfg : Config) (ev : event) (st : Store)
    : option (Store * option (list Line)) :=
  match ev with
  | Tick now => '(out, st') ← submit cfg now st; Some (st', Some out)
  | Recv s => Some (apply_packet s st, None)
  end.

(** The loop of [monitor] over a finite sequence of events: the final
    store and the output of every flush, oldest first. *)
Fixpoint monitor (cfg : Config) (evs : list event) (st : Store)
    : option (Store * list (list Line)) :=
  match evs with
  | [] => Some (st, [])
  | ev :: evs' =>
      '(st1, out) ← monitor_step cfg ev st;
      '(st2, outs) ← monitor cfg evs' st1;
      Some (st2, match out with Some o => o :: outs | None => outs end)
  end.

(** The packets of a sequence of datagrams, each decoded by
    [handleMessage], as events in that order. *)
Definition receive (bufs : list string) : list event :=
  map Recv (concat (map handleMessage bufs)).

(** The store after the packets [ps] were received in that order. *)
Definition apply_packets (ps : list Packet) (st : Store) : Store :=
  fold_left (fun st' s => apply_packet s st') ps st.

End Monitor.

(** ** Vocabulary of the statements *)

(** Every byte of [s] is in the class [p]. *)
Fixpoint string_forall (p : ascii -> bool) (s : string) : bool :=
  match s with
  | EmptyString => true
  | String c s' => p c && string_forall p s'
  end.

(** [s] does not start with a byte of the class [p]. *)
Definition stops (p : ascii -> bool) (s : string) : bool :=
  match s with
  | EmptyString => true
  | String c _ => negb (p c)
  end.

Definition nonempty (s : string) : bool :=
  match s with EmptyString => false | _ => true end.

(** The texts that [packetRegexp] captures as a value: an optional ['-'],
    then digits and dots. *)
Definition value_text (s : string) : bool :=
  match lit "-" s with
  | Some r => string_forall is_num r
  | None => string_forall is_num s
  end.

(** The text of a sample, [name:value|type] with an optional [|@rate]. *)
Record encoding := mkEncoding {
  enc_name : string;
  enc_neg : bool;
  enc_num : string;
  enc_type : string;
  enc_rate : option string
}.

Definition enc_value (e : encoding) : string :=
  (if enc_neg e then "-" else "") +:+ enc_num e.

Definition enc_suffix (e : encoding) : string :=
  match enc_rate e with Some r => "|@" +:+ r | None => "" end.

Definition enc_text (e : encoding) : string :=
  enc_name e +:+ ":" +:+ enc_value e +:+ "|" +:+ enc_type e +:+ enc_suffix e.

(** The encoding is one that [packetRegexp] matches as a whole. *)
Definition enc_valid (e : encoding) : bool :=
  nonempty (enc_name e) && string_forall is_name (enc_name e)
  && nonempty (enc_num e) && string_forall is_num (enc_num e)
  && (String.eqb (enc_type e) "c" || String.eqb (enc_type e) "ms"
      || String.eqb (enc_type e) "g")
  && match enc_rate e with
     | Some r => nonempty r && string_forall is_num r
     | None => true
     end.

(** The groups of the match of an encoding. *)
Definition enc_item (e : encoding) : submatch :=
  Submatch (enc_text e) (enc_name e) (enc_value e) (enc_type e)
           (enc_suffix e) (default "" (enc_rate e)).

(** The text [rest] cannot prolong the match of [e]: after a sample rate
    it does not go on with a digit or a dot, and without one it does not
    start a sample rate. *)
Definition cannot_extend (e : encoding) (rest : string) : bool :=
  match enc_rate e with
  | Some _ => stops is_num rest
  | None => match opt_rate rest with None => true | Some _ => false end
  end.

(** The rational number that an unsigned decimal text denotes. *)
Definition decimal_Q (s : string) : option Q :=
  '(mant, frac) ← read_mantissa false false 0 0 s;
  Some (Qmake mant (Z.to_pos (10 ^ Z.of_nat frac))).

(** The count that the specification gives for counter samples
    [(value, rate)]: the exact sum of [value / rate]. *)
Fixpoint exact_extrapolation (samples : list (string * string)) : option Q :=
  match samples with
  | [] => Some 0%Q
  | (v, r) :: rest =>
      qv ← decimal_Q v; qr ← decimal_Q r; acc ← exact_extrapolation rest;
      Some (qv / qr + acc)%Q
  end.

(** The packets of a window that are counter samples ([monitor] takes
    every modifier but ["ms"] and ["g"] for a counter), and the buckets
    that they touch. *)
Definition is_counter_packet (s : Packet) : bool :=
  negb (String.eqb (Modifier s) "ms") && negb (String.eqb (Modifier s) "g").

Definition active_counters (window : list Packet) : list string :=
  remove_dups (map Bucket (filter (fun s => is_counter_packet s = true) window)).

(** The sum of the increments of a sequence of counter packets. *)
Definition sum_increments (int_indefinite : Z) (ps : list Packet) : Z :=
  fold_right
    (fun s acc => counter_increment int_indefinite (Value s) (Sampling s) + acc)
    0 ps.

(** [x] is not after [y] in the order of [sort.Float64s]. *)
Definition float_le (x y : float) : Prop := float_less y x = false.

(** What the body of the timers loop does to the map [timers]. *)
Definition clear_timer (m : gmap string (list float))
    (kv : string * list float) : gmap string (list float) :=
  match kv.2 with
  | [] => m
  | _ :: _ => <[kv.1 := []]> m
  end.

(** No slice of the store is longer than an [int] can count. *)
Definition timers_bounded (st : Store) : Prop :=
  map_Forall (fun _ t => Z.of_nat (length t) < 2 ^ 63) (timers st).

(** The result of an out-of-range conversion to [int] on amd64. *)
Definition amd64_indefinite : Z := - 2 ^ 63.

(** The store after a flush, as the loops of [submit] leave it. *)
Definition flushed (st : Store) : Store :=
  mkStore ((fun _ => 0) <$> counters st)
          ((fun _ => []) <$> timers st)
          (gauges st).

(** ** Vocabulary of the further properties *)

(** A float that is a zero or a finite number with the sign bit clear. *)
Definition nonneg_finite (x : float) : bool :=
  match x with
  | S754_zero false | S754_finite false _ _ => true
  | _ => false
  end.

(** One of the three modifiers of [packetRegexp]. *)
Definition known_modifier (m : string) : bool :=
  String.eqb m "c" || String.eqb m "ms" || String.eqb m "g".



(** The float64 that [monitor] stores for a timer packet. *)
Definition observation (s : Packet) : float :=
  fst (ParseFloat F64.prec F64.emax (Value s)).

(** The statistics that [submit] writes for a timer bucket holding [t]:
    zeros for an empty list, else those of [timer_summary]. *)
Definition timer_report (cfg : Config) (t : list float) : timer_stats :=
  match t with
  | [] => zero_stats
  | _ :: _ => default zero_stats (timer_summary cfg t)
  end.

(** The lines of a flush, bucket by bucket: the counters, the gauges, the
    timers, then numStats. *)
Definition flush_lines (cfg : Config) (now : Z) (st : Store) : list Line :=
  flat_map (counter_lines cfg now) (map_to_list (counters st))
  ++ flat_map (gauge_lines cfg now) (map_to_list (gauges st))
  ++ flat_map (fun kv => timer_lines cfg now kv.1 (timer_report cfg kv.2))
              (map_to_list (timers st))
  ++ [ mkLine (statsPrefix cfg +:+ "statsd.numStats")
              (VInt (Z.of_nat (size (counters st))
                     + Z.of_nat (size (gauges st))
                     + Z.of_nat (size (timers st)))) now ].

(** ** The second sink of [main.go]

    [submit] hands every value that it prints to [gmSubmit] (integers) or
    [gmSubmitFloat] (floats) as well; with a ganglia address configured
    each of them calls [gm.SendMetric] in a goroutine of its own.  The
    definitions below give these calls in the order in which [submit] makes
    them; the text [fmt.Sprint(value)] is kept as the value itself. *)

(** The conversion [uint32(n)] of an integer. *)
Definition uint32 (n : Z) : Z := n mod 2 ^ 32.

Inductive gm_value_type := VALUE_UNSIGNED_INT | VALUE_DOUBLE.

(** The arguments of one [gm.SendMetric]: name, value, type, units and
    group, and the interval passed both as tmax and as dmax (the slope is
    always [SLOPE_BOTH]). *)
Record GmCall := mkGmCall {
  gm_name : string;
  gm_value : metric_value;
  gm_type : gm_value_type;
  gm_units : string;
  gm_ival : Z;
  gm_group : string
}.

(** [m_ival := uint32(flushInterval * int64(2))]. *)
Definition m_ival (cfg : Config) : Z := uint32 (wrap64 (flushInterval cfg * 2)).

(** The closure [gmSubmit], applied to a value already converted to
    [uint32]. *)
Definition gmSubmit (useGanglia : bool) (cfg : Config) (name : string)
    (value : Z) : list GmCall :=
  if useGanglia then
    [mkGmCall name (VInt value) VALUE_UNSIGNED_INT "count" (m_ival cfg) "statsd"]
  else [].

(** The closure [gmSubmitFloat]. *)
Definition gmSubmitFloat (useGanglia : bool) (cfg : Config) (name : string)
    (value : float) : list GmCall :=
  if useGanglia then
    [mkGmCall name (VFloat value) VALUE_DOUBLE "count" (m_ival cfg) "statsd"]
  else [].

(** The calls of the body of the counters loop. *)
Definition counter_calls (useGanglia : bool) (cfg : Config)
    (kv : string * Z) : list GmCall :=
  gmSubmitFloat useGanglia cfg ("stats_" +:+ kv.1) (counter_rate cfg kv.2)
  ++ gmSubmit useGanglia cfg ("stats_counts_" +:+ kv.1) (uint32 kv.2).

(** The call of the body of the gauges loop. *)
Definition gauge_calls (useGanglia : bool) (cfg : Config)
    (kv : string * Z) : list GmCall :=
  gmSubmit useGanglia cfg ("stats_" +:+ kv.1) (uint32 kv.2).

(** The calls of the body of the timers loop, for the statistics [r]. *)
Definition timer_calls (useGanglia : bool) (cfg : Config) (u : string)
    (r : timer_stats) : list GmCall :=
  let p := "stats_timers_" +:+ u in
  gmSubmitFloat useGanglia cfg (p +:+ "_mean") (ts_mean r)
  ++ gmSubmitFloat useGanglia cfg (p +:+ "_upper") (ts_max r)
  ++ gmSubmitFloat useGanglia cfg
       (p +:+ "_upper_" +:+ format_int (percentThreshold cfg))
       (ts_maxAtThreshold r)
  ++ gmSubmitFloat useGanglia cfg (p +:+ "_lower") (ts_min r)
  ++ gmSubmit useGanglia cfg (p +:+ "_count") (uint32 (ts_count r)).

(** The calls of a flush that completes: those of the three loops, then
    the one for [numStats], which by then is the number of buckets. *)
Definition ganglia_calls (useGanglia : bool) (cfg : Config) (st : Store)
    : list GmCall :=
  flat_map (counter_calls useGanglia cfg) (map_to_list (counters st))
  ++ flat_map (gauge_calls useGanglia cfg) (map_to_list (gauges st))
  ++ flat_map (fun kv => timer_calls useGanglia cfg kv.1 (timer_report cfg kv.2))
              (map_to_list (timers st))
  ++ gmSubmit useGanglia cfg "statsd_numStats"
       (uint32 (Z.of_nat (size (counters st)) + Z.of_nat (size (gauges st))
                + Z.of_nat (size (timers st)))).

(** A call carries the value of a line: a float as it is, an integer
    reduced to 32 bits, each with its type tag. *)
Definition mirrors (c : GmCall) (l : Line) : Prop :=
  match line_value l with
  | VInt n => gm_value c = VInt (uint32 n) /\ gm_type c = VALUE_UNSIGNED_INT
  | VFloat x => gm_value c = VFloat x /\ gm_type c = VALUE_DOUBLE
  end.

(** The three kinds of packets that [monitor] tells apart. *)
Inductive packet_kind := Timer | Gauge | Counter.

Definition kind_of (s : Packet) : packet_kind :=
  if String.eqb (Modifier s) "ms" then Timer
  else if String.eqb (Modifier s) "g" then Gauge
  else Counter.

(** * Properties *)

(** ** Strings *)

Lemma app_cons (c : ascii) (a b : string) :
  String c a +:+ b = String c (a +:+ b).
Proof. reflexivity. Qed.

Lemma app_empty_l (b : string) : "" +:+ b = b.
Proof. reflexivity. Qed.

Lemma app_empty_r (a : string) : a +:+ "" = a.
Proof. induction a as [|c a IH]; [reflexivity|]. by rewrite app_cons, IH. Qed.

Lemma app_assoc_string (a b c : string) : (a +:+ b) +:+ c = a +:+ (b +:+ c).
Proof.
  induction a as [|x a IH]; [reflexivity|]. by rewrite !app_cons, IH.
Qed.


(** ** The decoder *)

Lemma sanitize_app (a b : string) :
  sanitize (a +:+ b) = sanitize a +:+ sanitize b.
Proof.
  induction a as [|c a IH]; [reflexivity|].
  rewrite app_cons. simpl. destruct (is_allowed c); [|done].
  by rewrite app_cons, IH.
Qed.

Lemma sanitize_allowed (s : string) :
  string_forall is_allowed s = true -> sanitize s = s.
Proof.
  induction s as [|c s IH]; [done|]. simpl.
  intros [Hc Hs]%andb_prop. rewrite Hc. by rewrite IH.
Qed.


Lemma string_forall_impl (p q : ascii -> bool) (s : string) :
  (forall c, p c = true -> q c = true) ->
  string_forall p s = true -> string_forall q s = true.
Proof.
  intros Hpq. induction s as [|c s IH]; [done|]. simpl.
  intros [Hc Hs]%andb_prop. rewrite (Hpq _ Hc). auto.
Qed.

Lemma string_forall_app (p : ascii -> bool) (a b : string) :
  string_forall p (a +:+ b) = string_forall p a && string_forall p b.
Proof.
  induction a as [|c a IH]; [reflexivity|].
  rewrite app_cons. simpl. by rewrite IH, andb_assoc.
Qed.

Ltac case_classes c :=
  unfold is_name, is_num, is_allowed, is_alnum;
  destruct (byte_in "a" "z" c), (byte_in "A" "Z" c), (is_digit c);
  repeat match goal with
         | |- context [Ascii.eqb c ?x] => destruct (Ascii.eqb c x)
         end;
  simpl; try done.

Lemma is_name_allowed (c : ascii) : is_name c = true -> is_allowed c = true.
Proof. case_classes c. Qed.

Lemma is_num_allowed (c : ascii) : is_num c = true -> is_allowed c = true.
Proof. case_classes c. Qed.

Lemma span_app (p : ascii -> bool) (a b : string) :
  string_forall p a = true -> stops p b = true -> span p (a +:+ b) = (a, b).
Proof.
  intros Ha Hb. induction a as [|c a IH].
  - rewrite app_empty_l. destruct b as [|c b]; [done|]. simpl in *.
    apply negb_true_iff in Hb. by rewrite Hb.
  - simpl in Ha. apply andb_prop in Ha as [Hc Ha].
    rewrite app_cons. simpl. rewrite Hc, (IH Ha). done.
Qed.

Lemma plus_app (p : ascii -> bool) (a b : string) :
  nonempty a = true -> string_forall p a = true -> stops p b = true ->
  plus p (a +:+ b) = Some (a, b).
Proof.
  intros Hne Ha Hb. unfold plus. rewrite (span_app _ _ _ Ha Hb).
  by destruct a.
Qed.


Lemma span_sound (p : ascii -> bool) (s a b : string) :
  span p s = (a, b) -> s = a +:+ b.
Proof.
  revert a b. induction s as [|c s IH]; intros a b; simpl.
  - by intros [= <- <-].
  - destruct (p c); [|by intros [= <- <-]].
    destruct (span p s) as [a' b'] eqn:E. intros [= <- <-].
    by rewrite app_cons, <- (IH a' b').
Qed.

Lemma plus_sound (p : ascii -> bool) (s a b : string) :
  plus p s = Some (a, b) -> s = a +:+ b /\ nonempty a = true.
Proof.
  unfold plus. destruct (span p s) as [a' b'] eqn:E.
  destruct a' as [|c a']; [done|]. intros [= <- <-].
  split; [by apply span_sound in E|done].
Qed.

Lemma lit_sound (c : ascii) (s r : string) : lit c s = Some r -> s = String c r.
Proof.
  destruct s as [|c' s]; [done|]. simpl.
  destruct (Ascii.eqb_spec c c'); [|done]. by intros [= <-]; subst.
Qed.

Lemma alt_type_sound (s ty r : string) :
  alt_type s = Some (ty, r) -> s = ty +:+ r.
Proof.
  unfold alt_type. intros H.
  repeat (case_match; try discriminate; subst); by injection H as <- <-.
Qed.

Lemma opt_rate_sound (s g r : string) :
  opt_rate s = Some (g, r) -> s = ("|@" +:+ g) +:+ r.
Proof.
  unfold opt_rate. intros H.
  destruct (lit "|" s) as [s1|] eqn:E1; [|done]. simpl in H.
  destruct (lit "@" s1) as [s2|] eqn:E2; [|done]. simpl in H.
  apply lit_sound in E1, E2. apply plus_sound in H as [-> _]. by subst.
Qed.

(** What [match_here] returns is a split of its input: the match, then
    the rest; and the match is not empty. *)
Lemma match_here_sound (s : string) (it : submatch) (rest : string) :
  match_here s = Some (it, rest) ->
  s = item0 it +:+ rest /\ nonempty (item0 it) = true.
Proof.
  unfold match_here. intros H.
  destruct (plus is_name s) as [[name s1]|] eqn:E1; [|done]. simpl in H.
  destruct (lit ":" s1) as [s2|] eqn:E2; [|done]. simpl in H.
  apply plus_sound in E1 as [-> Hne]. apply lit_sound in E2 as ->.
  assert (exists sign s3, s2 = sign +:+ s3 /\
    match lit "-" s2 with Some r => ("-", r) | None => ("", s2) end
      = (sign, s3)) as (sign & s3 & -> & Hs).
  { destruct (lit "-" s2) as [r|] eqn:E; [|by exists "", s2].
    apply lit_sound in E as ->. by exists "-", r. }
  rewrite Hs in H. clear Hs.
  destruct (plus is_num s3) as [[num s4]|] eqn:E3; [|done]. simpl in H.
  destruct (lit "|" s4) as [s5|] eqn:E4; [|done]. simpl in H.
  destruct (alt_type s5) as [[ty s6]|] eqn:E5; [|done]. simpl in H.
  apply plus_sound in E3 as [-> _]. apply lit_sound in E4 as ->.
  apply alt_type_sound in E5 as ->.
  destruct (opt_rate s6) as [[r rest']|] eqn:E6.
  - apply opt_rate_sound in E6 as ->. injection H as <- <-. simpl. split.
    + by rewrite !app_assoc_string.
    + by destruct name.
  - injection H as <- <-. simpl. split.
    + by rewrite !app_assoc_string.
    + by destruct name.
Qed.

Lemma find_all_skip (a rest : string) :
  find_all_from (String.length a) (a +:+ rest) = find_all_from 0 rest.
Proof.
  induction a as [|c a IH]; [reflexivity|].
  rewrite app_cons. simpl. exact IH.
Qed.

(** [FindAllStringSubmatch] resumes after each match. *)
Lemma find_all_match (s : string) (it : submatch) (rest : string) :
  match_here s = Some (it, rest) ->
  FindAllStringSubmatch s = it :: FindAllStringSubmatch rest.
Proof.
  intros H. destruct (match_here_sound _ _ _ H) as [Hs Hne].
  unfold FindAllStringSubmatch.
  destruct (item0 it) as [|c t] eqn:E0; [done|].
  rewrite Hs at 1. rewrite app_cons.
  change (find_all_from 0 (String c (t +:+ rest))) with
    (match match_here (String c (t +:+ rest)) with
     | Some (it', _) =>
         it' :: find_all_from (Nat.pred (String.length (item0 it')))
                              (t +:+ rest)
     | None => find_all_from 0 (t +:+ rest)
     end).
  rewrite <- app_cons, <- Hs, H, E0. simpl. by rewrite find_all_skip.
Qed.

(** ... and moves one byte on where no match starts. *)
Lemma find_all_no_match (c : ascii) (s : string) :
  match_here (String c s) = None ->
  FindAllStringSubmatch (String c s) = FindAllStringSubmatch s.
Proof. unfold FindAllStringSubmatch. simpl. by intros ->. Qed.

Lemma is_num_not_minus (c : ascii) : is_num c = true -> Ascii.eqb "-" c = false.
Proof.
  intros H. destruct (Ascii.eqb_spec "-" c) as [<-|]; [|done]. discriminate H.
Qed.

Lemma span_forall (p : ascii -> bool) (s a b : string) :
  span p s = (a, b) -> string_forall p a = true.
Proof.
  revert a b. induction s as [|c s IH]; intros a b; simpl.
  - by intros [= <- <-].
  - destruct (p c) eqn:Hc; [|by intros [= <- <-]].
    destruct (span p s) as [a' b'] eqn:E. intros [= <- <-].
    simpl. by rewrite Hc, (IH a' b').
Qed.

Lemma plus_forall (p : ascii -> bool) (s a b : string) :
  plus p s = Some (a, b) -> string_forall p a = true.
Proof.
  unfold plus. destruct (span p s) as [a' b'] eqn:E.
  destruct a'; [done|]. intros [= <- <-]. by apply span_forall in E.
Qed.

Lemma lit_minus_forall (s : string) :
  nonempty s = true -> string_forall is_num s = true -> lit "-" s = None.
Proof.
  destruct s as [|c s]; [done|]. intros _ [Hc _]%andb_prop.
  unfold lit. by rewrite (is_num_not_minus _ Hc).
Qed.

(** The value and the sample rate of a match only hold the bytes on which
    [ParseFloat] and [Atoi] are modelled. *)
Lemma match_here_alphabet (s : string) (it : submatch) (rest : string) :
  match_here s = Some (it, rest) ->
  value_text (item2 it) = true /\ string_forall is_num (item5 it) = true.
Proof.
  unfold match_here. intros H.
  destruct (plus is_name s) as [[name s1]|]; [|done]. simpl in H.
  destruct (lit ":" s1) as [s2|]; [|done]. simpl in H.
  destruct (match lit "-" s2 with Some r => ("-", r) | None => ("", s2) end)
    as [sign s3] eqn:Hs.
  assert (sign = "-" \/ sign = "") as Hsign.
  { destruct (lit "-" s2); injection Hs as <- _; auto. }
  destruct (plus is_num s3) as [[num s4]|] eqn:E3; [|done]. simpl in H.
  destruct (lit "|" s4) as [s5|]; [|done]. simpl in H.
  destruct (alt_type s5) as [[ty s6]|]; [|done]. simpl in H.
  pose proof (plus_forall _ _ _ _ E3) as Hnum.
  apply plus_sound in E3 as [_ Hne].
  assert (value_text (sign +:+ num) = true) as Hval.
  { unfold value_text. destruct Hsign as [-> | ->].
    - by rewrite app_cons, app_empty_l.
    - by rewrite app_empty_l, lit_minus_forall. }
  destruct (opt_rate s6) as [[r rest']|] eqn:E6.
  - injection H as <- <-. simpl. split; [done|].
    unfold opt_rate in E6.
    destruct (lit "|" s6) as [t1|]; [|done]. simpl in E6.
    destruct (lit "@" t1) as [t2|]; [|done]. simpl in E6.
    by apply plus_forall in E6.
  - by injection H as <- <-.
Qed.

Lemma find_all_from_matches (k : nat) (s : string) :
  Forall (fun it => exists s' rest, match_here s' = Some (it, rest))
         (find_all_from k s).
Proof.
  revert k. induction s as [|c s IH]; intros k; [constructor|].
  destruct k as [|k]; [|apply IH]. cbn [find_all_from].
  destruct (match_here (String c s)) as [[it rest]|] eqn:E; [|apply IH].
  constructor; [by eauto|apply IH].
Qed.

(** Every decoded packet carries a value in that alphabet. *)
Lemma handleMessage_alphabet (buf : string) :
  Forall (fun s => value_text (Value s) = true) (handleMessage buf).
Proof.
  unfold handleMessage, FindAllStringSubmatch. apply Forall_map.
  eapply Forall_impl; [apply find_all_from_matches|].
  intros it (s' & rest & [Hv _]%match_here_alphabet).
  unfold packet_of_item.
  destruct (ParseFloat F32.prec F32.emax (item5 it)) as [rate err]. simpl.
  destruct (String.eqb (item3 it) "ms"); [|done].
  by destruct (snd (ParseFloat F32.prec F32.emax (item2 it))).
Qed.

Lemma enc_text_allowed (e : encoding) :
  enc_valid e = true -> string_forall is_allowed (enc_text e) = true.
Proof.
  unfold enc_valid, enc_text, enc_value, enc_suffix.
  intros H. repeat (apply andb_prop in H as [H ?]).
  rewrite !string_forall_app, !andb_true_iff. repeat split.
  - eapply string_forall_impl; [apply is_name_allowed|done].
  - by destruct (enc_neg e).
  - eapply string_forall_impl; [apply is_num_allowed|done].
  - match goal with
    | Ht : _ || _ || _ = true |- _ =>
        repeat (apply orb_prop in Ht as [Ht|Ht]);
        apply String.eqb_eq in Ht; by rewrite Ht
    end.
  - destruct (enc_rate e) as [r|]; [|done].
    match goal with
    | Hr : _ && _ = true |- _ => apply andb_prop in Hr as [_ Hr]
    end.
    rewrite string_forall_app. simpl.
    eapply string_forall_impl; [apply is_num_allowed|done].
Qed.

Ltac norm_app := rewrite ?app_assoc_string, ?app_cons, ?app_empty_l.

Lemma alt_type_enc (ty rest : string) :
  (String.eqb ty "c" || String.eqb ty "ms" || String.eqb ty "g") = true ->
  alt_type (ty +:+ rest) = Some (ty, rest).
Proof.
  intros H. repeat (apply orb_prop in H as [H|H]);
    apply String.eqb_eq in H; by rewrite H.
Qed.

Lemma lit_minus_num (num rest : string) :
  nonempty num = true -> string_forall is_num num = true ->
  lit "-" (num +:+ rest) = None.
Proof.
  destruct num as [|c num]; [done|]. intros _ [Hc _]%andb_prop.
  rewrite app_cons. unfold lit. by rewrite (is_num_not_minus _ Hc).
Qed.

(** The match of a valid encoding that nothing prolongs. *)
Lemma match_here_enc (e : encoding) (rest : string) :
  enc_valid e = true -> cannot_extend e rest = true ->
  match_here (enc_text e +:+ rest) = Some (enc_item e, rest).
Proof.
  unfold enc_valid, cannot_extend, enc_item, enc_text, enc_value, enc_suffix.
  destruct e as [name neg num ty rate]. simpl.
  intros H Hext. repeat (apply andb_prop in H as [H ?]).
  assert (opt_rate (match rate with Some r => "|@" +:+ r | None => "" end
                    +:+ rest)
          = match rate with Some r => Some (r, rest) | None => None end)
    as Hrate.
  { destruct rate as [r|].
    - match goal with
      | Hr : _ && _ = true |- _ => apply andb_prop in Hr as [Hr1 Hr2]
      end.
      norm_app. unfold opt_rate. simpl. by rewrite plus_app.
    - norm_app. by destruct (opt_rate rest). }
  unfold match_here. norm_app.
  rewrite plus_app by done. simpl. norm_app.
  destruct neg; norm_app; simpl.
  - rewrite plus_app by done. simpl. rewrite alt_type_enc by done. simpl.
    rewrite Hrate. destruct rate; simpl; by norm_app.
  - rewrite lit_minus_num by done.
    rewrite plus_app by done. simpl. rewrite alt_type_enc by done. simpl.
    rewrite Hrate. destruct rate; simpl; by norm_app.
Qed.

(** A valid encoding at the head of a datagram gives its own packet and
    leaves the decoding of the rest as it is, as long as the sanitized rest
    does not prolong the match. *)
Lemma handleMessage_head (e : encoding) (rest : string) :
  enc_valid e = true -> cannot_extend e (sanitize rest) = true ->
  handleMessage (enc_text e +:+ rest)
  = packet_of_item (enc_item e) :: handleMessage rest.
Proof.
  intros Hv Hext. unfold handleMessage.
  rewrite sanitize_app, (sanitize_allowed _ (enc_text_allowed _ Hv)).
  by rewrite (find_all_match _ _ _ (match_here_enc _ _ Hv Hext)).
Qed.

(** Exactly one packet per match, in order; a buffer without match gives
    none. *)
Lemma handleMessage_length (buf : string) :
  length (handleMessage buf)
  = length (FindAllStringSubmatch (sanitize buf)).
Proof. unfold handleMessage. apply length_map. Qed.



(** ** The consumer loop *)

Lemma wrap64_small (z : Z) : - 2 ^ 63 <= z < 2 ^ 63 -> wrap64 z = z.
Proof. intros H. unfold wrap64. rewrite Z.mod_small; lia. Qed.

Lemma wrap64_add_l (a b : Z) : wrap64 (wrap64 a + b) = wrap64 (a + b).
Proof.
  unfold wrap64.
  replace ((a + 2 ^ 63) mod 2 ^ 64 - 2 ^ 63 + b + 2 ^ 63)
    with ((a + 2 ^ 63) mod 2 ^ 64 + b) by lia.
  rewrite Zplus_mod_idemp_l. do 2 f_equal. lia.
Qed.


Lemma monitor_receive (ind : Z) (cfg : Config) (ps : list Packet) (st : Store) :
  monitor ind cfg (map Recv ps) st = Some (apply_packets ind ps st, []).
Proof.
  revert st. induction ps as [|p ps IH]; intros st; [reflexivity|].
  simpl. by rewrite IH.
Qed.

Lemma at_key_ensure {A} (zero : A) (m : gmap string A) (k : string) :
  at_key zero (ensure_key zero m k) k = at_key zero m k.
Proof.
  unfold at_key, ensure_key. destruct (m !! k) eqn:E; [by rewrite E|].
  by rewrite lookup_insert_eq.
Qed.

Lemma at_key_insert {A} (zero x : A) (m : gmap string A) (k : string) :
  at_key zero (<[k := x]> m) k = x.
Proof. unfold at_key. by rewrite lookup_insert_eq. Qed.

(** One counter packet adds its increment to its bucket. *)
Lemma apply_counter_packet (ind : Z) (s : Packet) (st : Store) :
  is_counter_packet s = true ->
  at_key 0 (counters (apply_packet ind s st)) (Bucket s)
  = wrap64 (at_key 0 (counters st) (Bucket s)
            + counter_increment ind (Value s) (Sampling s)).
Proof.
  unfold is_counter_packet, apply_packet.
  intros [H1 H2]%andb_prop. apply negb_true_iff in H1, H2.
  rewrite H1, H2. simpl. by rewrite at_key_insert, at_key_ensure.
Qed.

Lemma apply_counter_packets (ind : Z) (b : string) (ps : list Packet)
    (st : Store) :
  Forall (fun s => Bucket s = b /\ is_counter_packet s = true) ps ->
  ps <> [] ->
  at_key 0 (counters (apply_packets ind ps st)) b
  = wrap64 (at_key 0 (counters st) b + sum_increments ind ps).
Proof.
  intros Hall. revert st. induction Hall as [|s ps [Hb Hc] Hall IH];
    intros st Hne; [done|].
  unfold apply_packets. simpl. fold (apply_packets ind ps (apply_packet ind s st)).
  destruct ps as [|s' ps'].
  - simpl. subst b. rewrite apply_counter_packet by done.
    by rewrite Z.add_0_r.
  - rewrite IH by done. subst b. rewrite apply_counter_packet by done.
    rewrite wrap64_add_l. f_equal. simpl. lia.
Qed.

(** ** The flush *)

Lemma lookup_fold_insert {A} (z : A) (l : list (string * A))
    (m : gmap string A) (k : string) :
  fold_left (fun m' kv => <[kv.1 := z]> m') l m !! k
  = if decide (k ∈ l.*1) then Some z else m !! k.
Proof.
  revert m. induction l as [|[u x] l IH]; intros m.
  - case_decide as Hk; [by apply elem_of_nil in Hk|done].
  - cbn [fold_left]. rewrite IH. rewrite fmap_cons. cbn [fst].
    repeat case_decide; try done.
    + exfalso. match goal with Hn : _ ∉ _ :: _ |- _ => apply Hn end.
      by apply elem_of_cons; right.
    + match goal with
      | Hc : _ ∈ _ :: _ |- _ => apply elem_of_cons in Hc as [->|?]; [|done]
      end.
      apply lookup_insert_eq.
    + apply lookup_insert_ne. intros ->.
      match goal with Hn : _ ∉ _ :: _ |- _ => apply Hn end.
      by apply elem_of_cons; left.
Qed.

Lemma clear_timer_keeps (m : gmap string (list float)) (u v : string)
    (t : list float) :
  (t = [] -> m !! u = Some []) ->
  clear_timer m (u, t) !! v = if decide (v = u) then Some [] else m !! v.
Proof.
  intros Hm. unfold clear_timer. cbn [fst snd]. destruct t as [|x t].
  - destruct (decide (v = u)) as [->|Hv]; [by apply Hm|done].
  - destruct (decide (v = u)) as [->|Hv]; [apply lookup_insert_eq|].
    by apply lookup_insert_ne.
Qed.

Lemma lookup_fold_clear (l : list (string * list float))
    (m : gmap string (list float)) (k : string) :
  (forall u, (u, []) ∈ l -> m !! u = Some []) ->
  fold_left clear_timer l m !! k
  = if decide (k ∈ l.*1) then Some [] else m !! k.
Proof.
  revert m. induction l as [|[u t] l IH]; intros m Hm.
  - case_decide as Hk; [by apply elem_of_nil in Hk|done].
  - assert (t = [] -> m !! u = Some []) as Hu.
    { intros ->. apply Hm. by apply elem_of_cons; left. }
    cbn [fold_left]. rewrite IH.
    + rewrite fmap_cons. cbn [fst]. rewrite clear_timer_keeps by done.
      repeat case_decide; try done.
      * exfalso. match goal with Hn : _ ∉ _ :: _ |- _ => apply Hn end.
        by apply elem_of_cons; right.
      * exfalso. match goal with Hn : _ ∉ _ :: _ |- _ => apply Hn end.
        by apply elem_of_cons; left.
      * match goal with
        | Hc : _ ∈ _ :: _ |- _ => by apply elem_of_cons in Hc as [->|?]
        end.
    + intros v Hv. rewrite clear_timer_keeps by done.
      destruct (decide (v = u)); [done|]. apply Hm. by apply elem_of_cons; right.
Qed.

Lemma elem_of_keys_map_to_list {A} (m : gmap string A) (k : string) :
  k ∈ (map_to_list m).*1 <-> is_Some (m !! k).
Proof.
  rewrite list_elem_of_fmap. split.
  - intros [[k' x] [-> Hin]]. apply elem_of_map_to_list in Hin. by exists x.
  - intros [x Hx]. exists (k, x). split; [done|].
    by apply elem_of_map_to_list.
Qed.

(** Resetting every entry met while ranging over the map resets the map. *)
Lemma reset_all {A} (z : A) (m : gmap string A) :
  fold_left (fun m' kv => <[kv.1 := z]> m') (map_to_list m) m
  = (fun _ => z) <$> m.
Proof.
  apply map_eq. intros k. rewrite lookup_fold_insert, lookup_fmap.
  destruct (decide (k ∈ (map_to_list m).*1)) as [Hin|Hout].
  - apply elem_of_keys_map_to_list in Hin as [x ->]. done.
  - destruct (m !! k) eqn:E; [|done].
    exfalso. apply Hout, elem_of_keys_map_to_list. by rewrite E.
Qed.

Lemma clear_all (m : gmap string (list float)) :
  fold_left clear_timer (map_to_list m) m = (fun _ => []) <$> m.
Proof.
  apply map_eq. intros k. rewrite lookup_fold_clear, lookup_fmap.
  - destruct (decide (k ∈ (map_to_list m).*1)) as [Hin|Hout].
    + apply elem_of_keys_map_to_list in Hin as [x ->]. done.
    + destruct (m !! k) eqn:E; [|done].
      exfalso. apply Hout, elem_of_keys_map_to_list. by rewrite E.
  - intros u Hu. by apply elem_of_map_to_list in Hu.
Qed.

Lemma flush_counters_fold (cfg : Config) (now : Z) (l : list (string * Z))
    (fs : flush_state) :
  fold_left (flush_counter cfg now) l fs
  = mkFlush (fl_buffer fs ++ flat_map (counter_lines cfg now) l)
            (fl_numStats fs + Z.of_nat (length l))
            (mkStore (fold_left (fun m kv => <[kv.1 := 0]> m) l
                                (counters (fl_store fs)))
                     (timers (fl_store fs)) (gauges (fl_store fs))).
Proof.
  revert fs. induction l as [|kv l IH]; intros [buf n [c t g]].
  - simpl. by rewrite app_nil_r, Z.add_0_r.
  - cbn [fold_left]. rewrite IH. unfold flush_counter. simpl.
    rewrite <- app_assoc. f_equal. lia.
Qed.

Lemma flush_gauges_fold (cfg : Config) (now : Z) (l : list (string * Z))
    (fs : flush_state) :
  fold_left (flush_gauge cfg now) l fs
  = mkFlush (fl_buffer fs ++ flat_map (gauge_lines cfg now) l)
            (fl_numStats fs + Z.of_nat (length l))
            (fl_store fs).
Proof.
  revert fs. induction l as [|kv l IH]; intros [buf n st].
  - simpl. by rewrite app_nil_r, Z.add_0_r.
  - cbn [fold_left]. rewrite IH. unfold flush_gauge. simpl.
    rewrite <- app_assoc. f_equal. lia.
Qed.

(** The timers loop, when it does not panic: it only appends lines, counts
    one per bucket, clears the buckets, and writes the five zero lines of
    each bucket without observations. *)
Lemma flush_timers_fold (cfg : Config) (now : Z)
    (l : list (string * list float)) (fs fs' : flush_state) :
  fold_panic (flush_timer cfg now) l fs = Some fs' ->
  (exists tl, fl_buffer fs' = fl_buffer fs ++ tl /\
     forall u, (u, []) ∈ l ->
       exists pre post, tl = pre ++ timer_lines cfg now u zero_stats ++ post)
  /\ fl_numStats fs' = fl_numStats fs + Z.of_nat (length l)
  /\ fl_store fs'
     = mkStore (counters (fl_store fs))
               (fold_left clear_timer l (timers (fl_store fs)))
               (gauges (fl_store fs)).
Proof.
  revert fs. induction l as [|[u t] l IH]; intros [buf n [c ts g]] H.
  - injection H as <-. simpl. split; [|by rewrite Z.add_0_r].
    exists []. split; [by rewrite app_nil_r|].
    intros u Hu. by apply not_elem_of_nil in Hu.
  - cbn [fold_panic] in H.
    destruct (flush_timer cfg now (mkFlush buf n (mkStore c ts g)) (u, t))
      as [fs1|] eqn:E1; [|done]. simpl in H.
    destruct (IH _ H) as ((tl & Hbuf & Hzero) & Hn & Hst). clear IH H.
    unfold flush_timer in E1. simpl in E1. destruct t as [|x t].
    + injection E1 as <-. simpl in *. repeat split.
      * exists (timer_lines cfg now u zero_stats ++ tl).
        split; [by rewrite Hbuf, <- app_assoc|].
        intros v [[= ->]|Hv]%elem_of_cons.
        -- by exists [], tl.
        -- destruct (Hzero v Hv) as (pre & post & ->).
           exists (timer_lines cfg now u zero_stats ++ pre), post.
           by rewrite <- app_assoc.
      * lia.
      * done.
    + destruct (timer_summary cfg (x :: t)) as [r|]; [|done].
      injection E1 as <-. simpl in *. repeat split.
      * exists (timer_lines cfg now u r ++ tl).
        split; [by rewrite Hbuf, <- app_assoc|].
        intros v [[=]|Hv]%elem_of_cons.
        destruct (Hzero v Hv) as (pre & post & ->).
        exists (timer_lines cfg now u r ++ pre), post.
        by rewrite <- app_assoc.
      * lia.
      * done.
Qed.

Lemma flush_timers_total (cfg : Config) (now : Z)
    (l : list (string * list float)) (fs : flush_state) :
  (forall u t, (u, t) ∈ l -> is_Some (timer_summary cfg t)) ->
  is_Some (fold_panic (flush_timer cfg now) l fs).
Proof.
  revert fs. induction l as [|[u t] l IH]; intros fs Hl; [by eexists|].
  cbn [fold_panic]. unfold flush_timer at 1. destruct t as [|x t].
  - simpl. apply IH. intros v t' Hv. apply (Hl v). by apply elem_of_cons; right.
  - destruct (Hl u (x :: t)) as [r Hr]; [by apply elem_of_cons; left|].
    simpl. rewrite Hr. simpl. apply IH.
    intros v t' Hv. apply (Hl v). by apply elem_of_cons; right.
Qed.

(** [submit], when it completes: the store it leaves and the lines it
    writes. *)
Lemma submit_inv (cfg : Config) (now : Z) (st st' : Store)
    (out : list Line) :
  submit cfg now st = Some (out, st') ->
  st' = flushed st /\
  exists tl,
    out = flat_map (counter_lines cfg now) (map_to_list (counters st))
          ++ flat_map (gauge_lines cfg now) (map_to_list (gauges st))
          ++ tl
          ++ [ mkLine (statsPrefix cfg +:+ "statsd.numStats")
                      (VInt (Z.of_nat (size (counters st))
                             + Z.of_nat (size (gauges st))
                             + Z.of_nat (size (timers st)))) now ]
    /\ forall u, timers st !! u = Some [] ->
         exists pre post, tl = pre ++ timer_lines cfg now u zero_stats ++ post.
Proof.
  unfold submit. rewrite flush_counters_fold, flush_gauges_fold. simpl.
  intros H.
  match type of H with
  | context [fold_panic ?f ?l ?a] =>
      destruct (fold_panic f l a) as [fs3|] eqn:E; [|done]
  end.
  simpl in H. injection H as <- <-.
  apply flush_timers_fold in E as ((tl & Hbuf & Hzero) & Hn & Hst).
  simpl in *. split.
  - rewrite Hst, reset_all, clear_all. done.
  - exists tl. split.
    + rewrite Hbuf, Hn, !length_map_to_list, <- !app_assoc. do 4 f_equal; lia.
    + intros u Hu. apply Hzero. by apply elem_of_map_to_list.
Qed.

(** ** Timers *)

Lemma float_insert_perm (x : float) (l : list float) :
  Permutation (float_insert x l) (x :: l).
Proof.
  induction l as [|y l IH]; [done|]. simpl.
  destruct (float_less x y); [done|].
  rewrite IH. apply perm_swap.
Qed.

Lemma fold_insert_perm (t acc : list float) :
  Permutation (fold_left (fun a x => float_insert x a) t acc) (acc ++ t).
Proof.
  revert acc. induction t as [|x t IH]; intros acc; simpl.
  - by rewrite app_nil_r.
  - rewrite IH, float_insert_perm. simpl. apply Permutation_middle.
Qed.

(** [sort.Float64s] rearranges the slice. *)
Lemma Float64s_perm (t : list float) : Permutation (Float64s t) t.
Proof. unfold Float64s. by rewrite fold_insert_perm. Qed.

Lemma Float64s_length (t : list float) : length (Float64s t) = length t.
Proof. apply Permutation_length, Float64s_perm. Qed.


Lemma thresholdIndex_cases (cfg : Config) (count : Z) :
  - 100 < percentThreshold cfg < 200 -> 0 <= count < 2 ^ 63 ->
  thresholdIndex cfg count = 0 \/ thresholdIndex cfg count = count.
Proof.
  intros HP Hc. unfold thresholdIndex.
  rewrite (wrap64_small (100 - percentThreshold cfg)) by lia.
  assert (Z.quot (100 - percentThreshold cfg) 100 = 0
          \/ Z.quot (100 - percentThreshold cfg) 100 = 1) as [-> | ->].
  { clear Hc. Z.to_euclidean_division_equations. lia. }
  - left. reflexivity.
  - right. rewrite Z.mul_1_l. apply wrap64_small. lia.
Qed.

Lemma slice_bounds_ok (n count : Z) :
  0 <= n <= count -> ((0 <=? n) && (n <=? count)) = true.
Proof. intros H. apply andb_true_intro. split; apply Z.leb_le; lia. Qed.


(** [timer_summary] does not panic for a threshold between -99 and 199. *)
Lemma timer_summary_total (cfg : Config) (t : list float) :
  - 100 < percentThreshold cfg < 200 -> Z.of_nat (length t) < 2 ^ 63 ->
  is_Some (timer_summary cfg t).
Proof.
  intros HP Hmax. unfold timer_summary. rewrite Float64s_length.
  destruct (1 <? Z.of_nat (length t)); [|by eexists].
  destruct (thresholdIndex_cases cfg (Z.of_nat (length t))) as [-> | ->];
    try lia.
  - rewrite Z.sub_0_r, wrap64_small by lia.
    rewrite slice_bounds_ok by lia. by eexists.
  - rewrite Z.sub_diag. change (wrap64 0) with 0.
    rewrite slice_bounds_ok by lia. by eexists.
Qed.

(** [submit] completes for such a threshold. *)
Lemma submit_total (cfg : Config) (now : Z) (st : Store) :
  - 100 < percentThreshold cfg < 200 -> timers_bounded st ->
  is_Some (submit cfg now st).
Proof.
  intros HP Hb. unfold submit.
  match goal with
  | |- context [fold_panic ?f ?l ?a] =>
      destruct (flush_timers_total cfg now l a) as [fs3 ->]
  end.
  - intros u t Hu%elem_of_map_to_list.
    apply timer_summary_total; [done|]. exact (Hb u t Hu).
  - by eexists.
Qed.

(** ** The order of [sort.Float64s] *)

Ltac compare_cases :=
  repeat match goal with
         | |- context [Z.compare ?a ?b] =>
             destruct (Z.compare_spec a b); subst
         | |- context [Pos.compare_cont Eq ?a ?b] =>
             change (Pos.compare_cont Eq a b) with (Pos.compare a b);
             destruct (Pos.compare_spec a b); subst
         end.

Lemma float_less_asym (x y : float) :
  float_less x y = true -> float_less y x = false.
Proof.
  unfold float_less, F64.ltb, F64.is_nan, SFltb, SFcompare.
  destruct x as [[]|[]| |[] m1 e1], y as [[]|[]| |[] m2 e2]; simpl; try easy;
    compare_cases; simpl; try easy; try lia.
Qed.

Lemma float_less_irrefl (x : float) : float_less x x = false.
Proof.
  destruct (float_less x x) eqn:E; [|done]. by rewrite (float_less_asym _ _ E) in E.
Qed.

(** [float_le] is transitive. *)
Lemma float_le_trans (x y z : float) :
  float_le x y -> float_le y z -> float_le x z.
Proof.
  unfold float_le, float_less, F64.ltb, F64.is_nan, SFltb, SFcompare.
  destruct x as [[]|[]| |[] m1 e1], y as [[]|[]| |[] m2 e2],
           z as [[]|[]| |[] m3 e3]; simpl; try easy;
    compare_cases; simpl; try easy; try lia.
Qed.

Lemma float_insert_sorted (x : float) (l : list float) :
  StronglySorted float_le l -> StronglySorted float_le (float_insert x l).
Proof.
  induction 1 as [|y l Hs IH Hy]; simpl.
  - repeat constructor.
  - destruct (float_less x y) eqn:E.
    + constructor; [by constructor|]. constructor.
      * by apply float_less_asym.
      * eapply Forall_impl; [exact Hy|].
        intros z Hz. eapply float_le_trans; [|exact Hz].
        by apply float_less_asym.
    + constructor; [exact IH|].
      eapply Permutation_Forall; [symmetry; apply float_insert_perm|].
      by constructor.
Qed.

Lemma fold_insert_sorted (t acc : list float) :
  StronglySorted float_le acc ->
  StronglySorted float_le (fold_left (fun a x => float_insert x a) t acc).
Proof.
  revert acc. induction t as [|x t IH]; intros acc Hacc; [done|].
  simpl. by apply IH, float_insert_sorted.
Qed.

(** [sort.Float64s] sorts. *)
Lemma Float64s_sorted (t : list float) : StronglySorted float_le (Float64s t).
Proof. apply fold_insert_sorted. constructor. Qed.

Lemma sorted_hd_least (l : list float) (d : float) :
  StronglySorted float_le l -> Forall (float_le (hd d l)) l.
Proof.
  destruct 1 as [|y l Hs Hy]; [constructor|]. simpl.
  constructor; [apply float_less_irrefl|exact Hy].
Qed.

Lemma sorted_last_greatest (l : list float) (d : float) :
  StronglySorted float_le l -> Forall (fun x => float_le x (List.last l d)) l.
Proof.
  induction 1 as [|y l Hs IH Hy]; [constructor|].
  destruct l as [|z l].
  - simpl. constructor; [apply float_less_irrefl|constructor].
  - change (List.last (y :: z :: l) d) with (List.last (z :: l) d).
    constructor; [|exact IH].
    apply Forall_inv in Hy. apply Forall_inv in IH.
    by eapply float_le_trans.
Qed.

(** The first and the last element of the sorted slice bound every
    observation. *)
Lemma Float64s_bounds (t : list float) (d : float) :
  Forall (fun x => float_le (hd d (Float64s t)) x
                   /\ float_le x (List.last (Float64s t) d)) t.
Proof.
  eapply Permutation_Forall; [apply Float64s_perm|].
  pose proof (sorted_hd_least _ d (Float64s_sorted t)) as H1.
  pose proof (sorted_last_greatest _ d (Float64s_sorted t)) as H2.
  rewrite Forall_forall in *. intros x Hx. split; auto.
Qed.

(** * The claims *)

(** ** Gauges *)

(** C1 (defect of the code).  From a store without [temp], the datagrams
    "temp:5|g", "temp:+3|g", "temp:-1|g" should leave the gauge at 7 and a
    following "temp:9|g" at 9.  The code leaves 2: the sanitizer removes the
    byte '+', so "temp:+3|g" is decoded with the value "3" and replaces the
    gauge instead of adding to it.  [monitor] does handle a leading '+'
    (the same three values given to it as packets yield 7), and the last
    datagram does set 9. *)
Theorem gauge_plus_delta_is_stripped (ind : Z) :
  sanitize "temp:+3|g" = "temp:3|g"
  /\ handleMessage "temp:+3|g" = [mkPacket "temp" "3" "g" (F32.of_Z 1)]
  /\ (exists st,
        monitor ind default_config
                (receive ["temp:5|g"; "temp:+3|g"; "temp:-1|g"]) empty_store
        = Some (st, [])
        /\ gauges st !! "temp" = Some 2)
  /\ (exists st,
        monitor ind default_config
                (receive ["temp:5|g"; "temp:+3|g"; "temp:-1|g"; "temp:9|g"])
                empty_store
        = Some (st, [])
        /\ gauges st !! "temp" = Some 9)
  /\ gauges (apply_packets ind
               [ mkPacket "temp" "5" "g" (F32.of_Z 1);
                 mkPacket "temp" "+3" "g" (F32.of_Z 1);
                 mkPacket "temp" "-1" "g" (F32.of_Z 1) ] empty_store)
       !! "temp" = Some 7.
Proof.
  split; [reflexivity|]. split; [by vm_compute|].
  unfold receive. rewrite !monitor_receive.
  split; [eexists; split; [reflexivity|by vm_compute]|].
  split; [eexists; split; [reflexivity|by vm_compute]|].
  by vm_compute.
Qed.

(** ** Timers *)

(** The observations of four timer datagrams, as [monitor] stores them. *)
Lemma timer_observations_decoded (ind : Z) :
  timers (apply_packets ind
            (concat (map handleMessage ["t:5|ms"; "t:1|ms"; "t:9|ms"; "t:3|ms"]))
            empty_store) !! "t"
  = Some (map F64.of_Z [5; 1; 9; 3]).
Proof. by vm_compute. Qed.



(** ** Counters *)

(** C3 as stated fails: one sample "hits:1|c|@0.3" leaves the count 3,
    whereas 1 / 0.3 is 10/3. *)
Lemma counter_extrapolation_counterexample :
  exists st c q,
    monitor amd64_indefinite default_config (receive ["hits:1|c|@0.3"])
            empty_store = Some (st, [])
    /\ counters st !! "hits" = Some c
    /\ exact_extrapolation [("1", "0.3")] = Some q
    /\ ~ (inject_Z c == q)%Q.
Proof.
  unfold receive. rewrite monitor_receive.
  eexists _, 3, (10 # 3)%Q.
  split; [reflexivity|]. split; [by vm_compute|]. split; [by vm_compute|].
  by intros H.
Qed.

(** C3 (amended).  For every sequence of counter samples of one bucket,
    received from a count of 0, the count in the store is the sum of the
    increments [int(float32(v_i) * (1 / r_i))], each computed in float32
    and cut to an integer, reduced to an [int]; ten samples
    "hits:1|c|@0.1" make exactly 100. *)
Theorem counter_accumulates_increments (ind : Z) (cfg : Config) (b : string)
    (ps : list Packet) (st : Store) :
  Forall (fun s => Bucket s = b /\ is_counter_packet s = true) ps ->
  at_key 0 (counters st) b = 0 ->
  (exists st',
     monitor ind cfg (map Recv ps) st = Some (st', [])
     /\ at_key 0 (counters st') b = wrap64 (sum_increments ind ps))
  /\ (exists st',
        monitor ind cfg (receive (replicate 10 "hits:1|c|@0.1")) empty_store
        = Some (st', [])
        /\ counters st' !! "hits" = Some 100).
Proof.
  intros Hall H0. split.
  - rewrite monitor_receive. eexists. split; [reflexivity|].
    destruct ps as [|s ps]; [exact H0|].
    rewrite (apply_counter_packets ind b) by done. by rewrite H0.
  - unfold receive. rewrite monitor_receive.
    eexists. split; [reflexivity|]. by vm_compute.
Qed.

Lemma counter_accumulates_increments_witness :
  let ps := [ mkPacket "hits" "1" "c" (F32.of_Z 1);
              mkPacket "hits" "2" "c" (F32.of_Z 1) ] in
  Forall (fun s => Bucket s = "hits" /\ is_counter_packet s = true) ps
  /\ exists st',
       monitor amd64_indefinite default_config (map Recv ps) empty_store
       = Some (st', [])
       /\ at_key 0 (counters st') "hits"
          = wrap64 (sum_increments amd64_indefinite ps).
Proof.
  intros ps.
  assert (Forall (fun s => Bucket s = "hits" /\ is_counter_packet s = true) ps)
    as Hall.
  { repeat constructor. }
  split; [exact Hall|].
  exact (proj1 (counter_accumulates_increments amd64_indefinite default_config
                  "hits" ps empty_store Hall eq_refl)).
Defined.

(** C4 (defect of the code).  The rate of a counter should be its count
    divided by the flush interval in seconds: 10 for a count of 100 and
    the interval of 10.  The code divides by
    [interval * time.Second / 1e3], that is by 10,000,000: the rate written
    is 100 / 10^7, below 1. *)
Theorem counter_rate_divides_by_microseconds :
  (forall c, counter_rate default_config c
             = F64.div (F64.of_Z c) (F64.of_Z 10000000))
  /\ counter_rate default_config 100 <> F64.of_Z 10
  /\ F64.ltb (counter_rate default_config 100) (F64.of_Z 1) = true
  /\ submit default_config 0 (mkStore {["hits" := 100]} ∅ ∅)
     = Some ([ mkLine "stats.hits"
                      (VFloat (F64.div (F64.of_Z 100) (F64.of_Z 10000000))) 0;
               mkLine "stats.counters.hits" (VInt 100) 0;
               mkLine "stats.statsd.numStats" (VInt 1) 0 ],
             mkStore {["hits" := 0]} ∅ ∅).
Proof.
  split; [intros c; unfold counter_rate; f_equal|].
  split; [by vm_compute|]. split; by vm_compute.
Qed.

(** C5 as stated fails: a counter bucket sampled once is reported again,
    with the count 0, by a flush that follows a window without any
    sample. *)
Lemma idle_counter_counterexample :
  exists st out1 out2,
    monitor amd64_indefinite default_config
            (receive ["a:1|c"] ++ [Tick 0; Tick 10]) empty_store
    = Some (st, [out1; out2])
    /\ mkLine "stats.counters.a" (VInt 0) 10 ∈ out2.
Proof.
  eexists _, _, _. split; [by vm_compute|].
  apply elem_of_cons; right. apply elem_of_cons; by left.
Qed.

(** C5 (amended).  At every flush each counter bucket of the store is
    reported, with its rate and its count, whether or not it received a
    sample since the previous flush; the flush leaves the bucket in the
    store with the count 0, so that the next flush reports it again. *)
Theorem counters_in_store_are_reported (cfg : Config) (now : Z)
    (st st' : Store) (out : list Line) (s : string) (c : Z) :
  submit cfg now st = Some (out, st') ->
  counters st !! s = Some c ->
  mkLine (statsPrefix cfg +:+ s) (VFloat (counter_rate cfg c)) now ∈ out
  /\ mkLine (countersPrefix cfg +:+ s) (VInt c) now ∈ out
  /\ counters st' !! s = Some 0.
Proof.
  intros Hsub Hs. apply submit_inv in Hsub as (-> & tl & -> & _).
  assert (forall l, l ∈ counter_lines cfg now (s, c) ->
            l ∈ flat_map (counter_lines cfg now) (map_to_list (counters st)))
    as Hin.
  { intros l Hl. apply list_elem_of_In, in_flat_map. exists (s, c).
    split; apply list_elem_of_In; [by apply elem_of_map_to_list|done]. }
  split; [|split].
  - apply elem_of_app; left. apply Hin. apply elem_of_cons; by left.
  - apply elem_of_app; left. apply Hin.
    apply elem_of_cons; right. apply elem_of_cons; by left.
  - simpl. by rewrite lookup_fmap, Hs.
Qed.

Lemma counters_in_store_are_reported_witness :
  mkLine "stats.counters.hits" (VInt 0) 10
    ∈ [ mkLine "stats.hits" (VFloat F64.zero) 10;
        mkLine "stats.counters.hits" (VInt 0) 10;
        mkLine "stats.statsd.numStats" (VInt 1) 10 ].
Proof.
  refine (proj1 (proj2 (counters_in_store_are_reported default_config 10
            (mkStore {["hits" := 0]} ∅ ∅) (mkStore {["hits" := 0]} ∅ ∅)
            _ "hits" 0 _ _))); by vm_compute.
Defined.

(** ** The store after a flush *)

(** C6.  After a flush that completes every counter is 0, every timer
    bucket is still in the store with an empty list, and the gauges are the
    ones before the flush.  The flush completes for every percentile
    threshold between -99 and 199. *)
Theorem flush_resets_counters_and_timers (cfg : Config) (now : Z)
    (st : Store) :
  (- 100 < percentThreshold cfg < 200 -> timers_bounded st ->
   is_Some (submit cfg now st))
  /\ forall out st',
       submit cfg now st = Some (out, st') ->
       (forall k c, counters st' !! k = Some c -> c = 0)
       /\ (forall k, is_Some (counters st !! k) -> counters st' !! k = Some 0)
       /\ (forall k t, timers st' !! k = Some t -> t = [])
       /\ (forall k, is_Some (timers st !! k) -> timers st' !! k = Some [])
       /\ gauges st' = gauges st.
Proof.
  split; [apply submit_total|].
  intros out st' (-> & _)%submit_inv. simpl. repeat split.
  - intros k c. rewrite lookup_fmap. by destruct (counters st !! k); intros [=].
  - intros k [c Hc]. by rewrite lookup_fmap, Hc.
  - intros k t. rewrite lookup_fmap. by destruct (timers st !! k); intros [=].
  - intros k [t Ht]. by rewrite lookup_fmap, Ht.
Qed.

Lemma flush_resets_counters_and_timers_witness :
  timers (mkStore {["hits" := 0]} {["t" := []]} {["temp" := 7]}) !! "t"
  = Some [].
Proof.
  refine (proj1 (proj2 (proj2 (proj2
            (proj2 (flush_resets_counters_and_timers default_config 0
                      (mkStore {["hits" := 100]}
                               {["t" := [F64.of_Z 5; F64.of_Z 1]]}
                               {["temp" := 7]}))
                   _ (mkStore {["hits" := 0]} {["t" := []]} {["temp" := 7]})
                   _)))) "t" _).
  - by vm_compute.
  - eexists. by vm_compute.
Defined.

(** ** numStats *)

(** C7 as stated fails: after one counter sample and a flush, the next
    flush, of a window without any sample, still writes numStats 1, though
    no counter bucket had activity and the store holds no gauge and no
    timer. *)
Lemma numStats_counterexample :
  exists st out1 out2,
    monitor amd64_indefinite default_config
            (receive ["a:1|c"] ++ [Tick 0; Tick 10]) empty_store
    = Some (st, [out1; out2])
    /\ last out2 = Some (mkLine "stats.statsd.numStats" (VInt 1) 10)
    /\ Z.of_nat (length (active_counters []))
       + Z.of_nat (size (gauges st)) + Z.of_nat (size (timers st)) = 0.
Proof. eexists _, _, _. split; [by vm_compute|]. split; by vm_compute. Qed.

(** C7 (amended).  The last line of a flush is numStats, and its value is
    the number of counter buckets of the store (with or without activity
    in the window) plus the number of gauge buckets plus the number of
    timer buckets (with or without observations). *)
Theorem numStats_counts_buckets (cfg : Config) (now : Z) (st st' : Store)
    (out : list Line) :
  submit cfg now st = Some (out, st') ->
  last out
  = Some (mkLine (statsPrefix cfg +:+ "statsd.numStats")
                 (VInt (Z.of_nat (size (counters st))
                        + Z.of_nat (size (gauges st))
                        + Z.of_nat (size (timers st)))) now).
Proof.
  intros (_ & tl & -> & _)%submit_inv.
  by rewrite !app_assoc, last_snoc.
Qed.

Lemma numStats_counts_buckets_witness :
  last [ mkLine "stats.hits" (VFloat F64.zero) 10;
         mkLine "stats.counters.hits" (VInt 0) 10;
         mkLine "stats.gauges.temp" (VInt 7) 10;
         mkLine "stats.statsd.numStats" (VInt 2) 10 ]
  = Some (mkLine "stats.statsd.numStats" (VInt 2) 10).
Proof.
  refine (numStats_counts_buckets default_config 10
            (mkStore {["hits" := 0]} ∅ {["temp" := 7]})
            (mkStore {["hits" := 0]} ∅ {["temp" := 7]}) _ _).
  by vm_compute.
Defined.

(** C8.  A timer bucket of the store without observations is not left
    out: the flush writes its five lines mean, upper, upper_P, lower and
    count, all zero. *)
Theorem idle_timer_reports_zeros (cfg : Config) (now : Z) (st st' : Store)
    (out : list Line) (u : string) :
  submit cfg now st = Some (out, st') ->
  timers st !! u = Some [] ->
  exists pre post,
    out = pre ++
      [ mkLine ((timersPrefix cfg +:+ u) +:+ ".mean") (VFloat F64.zero) now;
        mkLine ((timersPrefix cfg +:+ u) +:+ ".upper") (VFloat F64.zero) now;
        mkLine ((timersPrefix cfg +:+ u) +:+ ".upper_"
                  +:+ format_int (percentThreshold cfg))
               (VFloat F64.zero) now;
        mkLine ((timersPrefix cfg +:+ u) +:+ ".lower") (VFloat F64.zero) now;
        mkLine ((timersPrefix cfg +:+ u) +:+ ".count") (VInt 0) now ]
      ++ post.
Proof.
  intros (_ & tl & -> & Hzero)%submit_inv Hu.
  destruct (Hzero u Hu) as (pre & post & ->).
  exists (flat_map (counter_lines cfg now) (map_to_list (counters st))
          ++ flat_map (gauge_lines cfg now) (map_to_list (gauges st))
          ++ pre).
  exists (post ++
          [ mkLine (statsPrefix cfg +:+ "statsd.numStats")
                   (VInt (Z.of_nat (size (counters st))
                          + Z.of_nat (size (gauges st))
                          + Z.of_nat (size (timers st)))) now ]).
  change (timer_lines cfg now u zero_stats) with
    [ mkLine ((timersPrefix cfg +:+ u) +:+ ".mean") (VFloat F64.zero) now;
      mkLine ((timersPrefix cfg +:+ u) +:+ ".upper") (VFloat F64.zero) now;
      mkLine ((timersPrefix cfg +:+ u) +:+ ".upper_"
                +:+ format_int (percentThreshold cfg))
             (VFloat F64.zero) now;
      mkLine ((timersPrefix cfg +:+ u) +:+ ".lower") (VFloat F64.zero) now;
      mkLine ((timersPrefix cfg +:+ u) +:+ ".count") (VInt 0) now ].
  generalize (flat_map (counter_lines cfg now) (map_to_list (counters st))).
  generalize (flat_map (gauge_lines cfg now) (map_to_list (gauges st))).
  intros gl cl. rewrite <- !app_assoc. reflexivity.
Qed.

Lemma idle_timer_reports_zeros_witness :
  exists pre post,
    [ mkLine "stats.timers.t.mean" (VFloat F64.zero) 10;
      mkLine "stats.timers.t.upper" (VFloat F64.zero) 10;
      mkLine "stats.timers.t.upper_90" (VFloat F64.zero) 10;
      mkLine "stats.timers.t.lower" (VFloat F64.zero) 10;
      mkLine "stats.timers.t.count" (VInt 0) 10;
      mkLine "stats.statsd.numStats" (VInt 1) 10 ]
    = pre ++
      [ mkLine "stats.timers.t.mean" (VFloat F64.zero) 10;
        mkLine "stats.timers.t.upper" (VFloat F64.zero) 10;
        mkLine "stats.timers.t.upper_90" (VFloat F64.zero) 10;
        mkLine "stats.timers.t.lower" (VFloat F64.zero) 10;
        mkLine "stats.timers.t.count" (VInt 0) 10 ]
      ++ post.
Proof.
  refine (idle_timer_reports_zeros default_config 10
            (mkStore ∅ {["t" := []]} ∅) (mkStore ∅ {["t" := []]} ∅)
            _ "t" _ _); by vm_compute.
Defined.

(** ** Decoding a datagram with several samples *)




(** ** A sample rate of zero *)

(** Every run of digits and dots is taken as a sample rate. *)
Lemma rate_text_accepted (r : string) :
  nonempty r = true -> string_forall is_num r = true ->
  handleMessage ("a:1|c|@" +:+ r)
  = [packet_of_item (enc_item (mkEncoding "a" false "1" "c" (Some r)))].
Proof.
  intros Hne Hr.
  pose proof (handleMessage_head (mkEncoding "a" false "1" "c" (Some r)) "")
    as H.
  rewrite app_empty_r in H. apply H; [|done].
  unfold enc_valid. simpl. by rewrite Hne, Hr.
Qed.

(** C10.  The pattern takes any run of digits and dots for the sample
    rate, "0" included, and the counter update divides by it unguarded:
    "a:1|c|@0" is decoded with the rate 0, [1 / 0] is the float32 infinity,
    and so is its product with the value; the increment of the counter is
    the conversion of that infinity to [int], which Go leaves to the
    implementation. *)
Theorem zero_sample_rate_gives_infinity (ind : Z) :
  handleMessage "a:1|c|@0" = [mkPacket "a" "1" "c" (S754_zero false)]
  /\ (forall s, F32.div (F32.of_Z 1) (S754_zero s) = S754_infinity s)
  /\ F32.mul (fst (ParseFloat F32.prec F32.emax "1")) (S754_infinity false)
     = S754_infinity false
  /\ counter_increment ind "1" (S754_zero false)
     = int_of_float ind (S754_infinity false)
  /\ int_of_float ind (S754_infinity false) = ind
  /\ exists st,
       monitor ind default_config (receive ["a:1|c|@0"]) empty_store
       = Some (st, [])
       /\ counters st !! "a" = Some (wrap64 (0 + ind)).
Proof.
  split; [by vm_compute|]. split; [by intros []|]. split; [by vm_compute|].
  split; [reflexivity|]. split; [reflexivity|].
  unfold receive. rewrite monitor_receive. eexists. split; [reflexivity|].
  change (concat (map handleMessage ["a:1|c|@0"]))
    with [mkPacket "a" "1" "c" (S754_zero false)].
  unfold apply_packets. simpl. by rewrite lookup_insert_eq.
Qed.

(** * Further properties of the decoder *)

Lemma length_app_string (a b : string) :
  String.length (a +:+ b) = (String.length a + String.length b)%nat.
Proof.
  induction a as [|x a IH]; [reflexivity|]. rewrite app_cons. simpl. by rewrite IH.
Qed.

Lemma sanitize_forall (s : string) :
  string_forall is_allowed (sanitize s) = true.
Proof.
  induction s as [|c s IH]; [done|]. simpl.
  destruct (is_allowed c) eqn:E; [|done]. simpl. by rewrite E.
Qed.

Lemma sanitize_length (s : string) :
  (String.length (sanitize s) <= String.length s)%nat.
Proof.
  induction s as [|c s IH]; [done|]. simpl.
  destruct (is_allowed c); simpl; lia.
Qed.

(** X1.  Bytes outside the class of the sanitizer are invisible to the
    decoder wherever they stand, inside an encoding as well as between two:
    a buffer with such bytes inserted is decoded as the buffer without them,
    and decoding the sanitized buffer is decoding the buffer. *)
Theorem stripped_bytes_are_invisible (a junk b : string) :
  sanitize junk = "" ->
  handleMessage (a +:+ junk +:+ b) = handleMessage (a +:+ b)
  /\ handleMessage (sanitize (a +:+ b)) = handleMessage (a +:+ b).
Proof.
  intros Hj. unfold handleMessage. split.
  - by rewrite !sanitize_app, Hj, app_empty_l.
  - by rewrite (sanitize_allowed _ (sanitize_forall _)).
Qed.

Lemma stripped_bytes_are_invisible_witness :
  handleMessage ("te" +:+ " + " +:+ "mp:1|c") = handleMessage ("te" +:+ "mp:1|c").
Proof.
  exact (proj1 (stripped_bytes_are_invisible "te" " + " "mp:1|c" eq_refl)).
Defined.

(** *** The pattern matches the valid encodings, and only them *)

Lemma span_stops (p : ascii -> bool) (s a b : string) :
  span p s = (a, b) -> stops p b = true.
Proof.
  revert a b. induction s as [|c s IH]; intros a b; simpl.
  - by intros [= <- <-].
  - destruct (p c) eqn:Hc.
    + destruct (span p s) as [a' b'] eqn:E. intros [= <- <-]. by apply (IH a').
    + intros [= <- <-]. simpl. by rewrite Hc.
Qed.

Lemma plus_stops_rest (p : ascii -> bool) (s a b : string) :
  plus p s = Some (a, b) -> stops p b = true.
Proof.
  unfold plus. destruct (span p s) as [a' b'] eqn:E.
  destruct a'; [done|]. intros [= <- <-]. by apply span_stops in E.
Qed.

Lemma alt_type_known (s ty r : string) :
  alt_type s = Some (ty, r) -> known_modifier ty = true.
Proof.
  unfold alt_type. intros H.
  repeat (case_match; try discriminate; subst); by injection H as <- <-.
Qed.

Lemma match_here_complete (s : string) (it : submatch) (rest : string) :
  match_here s = Some (it, rest) ->
  exists e, enc_valid e = true /\ cannot_extend e rest = true
            /\ it = enc_item e /\ s = enc_text e +:+ rest.
Proof.
  intros H. pose proof (match_here_sound _ _ _ H) as [Hs _].
  unfold match_here in H.
  destruct (plus is_name s) as [[name s1]|] eqn:E1; [|done]. simpl in H.
  destruct (lit ":" s1) as [s2|] eqn:E2; [|done]. simpl in H.
  assert (exists (neg : bool) (s3 : string),
    match lit "-" s2 with Some r => ("-", r) | None => ("", s2) end
      = ((if neg then "-" else "") : string, s3)) as (neg & s3 & Hsign).
  { destruct (lit "-" s2) as [r|]; [by exists true, r|by exists false, s2]. }
  rewrite Hsign in H. clear Hsign.
  destruct (plus is_num s3) as [[num s4]|] eqn:E3; [|done]. simpl in H.
  destruct (lit "|" s4) as [s5|] eqn:E4; [|done]. simpl in H.
  destruct (alt_type s5) as [[ty s6]|] eqn:E5; [|done]. simpl in H.
  pose proof (plus_forall _ _ _ _ E1) as Hname.
  pose proof (plus_forall _ _ _ _ E3) as Hnum.
  apply plus_sound in E1 as [_ Hne1]. apply plus_sound in E3 as [_ Hne3].
  apply alt_type_known in E5. unfold known_modifier in E5.
  destruct (opt_rate s6) as [[r rest']|] eqn:E6.
  - injection H as <- <-.
    unfold opt_rate in E6.
    destruct (lit "|" s6) as [t1|]; [|done]. simpl in E6.
    destruct (lit "@" t1) as [t2|]; [|done]. simpl in E6.
    pose proof (plus_forall _ _ _ _ E6) as Hr.
    pose proof (plus_stops_rest _ _ _ _ E6) as Hstop.
    apply plus_sound in E6 as [_ Hner].
    exists (mkEncoding name neg num ty (Some r)).
    unfold enc_valid, cannot_extend, enc_item, enc_text, enc_value, enc_suffix.
    simpl in *. rewrite Hne1, Hname, Hne3, Hnum, E5, Hner, Hr.
    by repeat split.
  - injection H as <- <-.
    exists (mkEncoding name neg num ty None).
    unfold enc_valid, cannot_extend, enc_item, enc_text, enc_value, enc_suffix.
    simpl in *. rewrite Hne1, Hname, Hne3, Hnum, E5, E6.
    by repeat split.
Qed.

(** X2.  [match_here] finds a match at the head of a text exactly when the
    text starts with a valid encoding that what follows cannot prolong; the
    groups are then those of the encoding and the rest is what follows.  In
    particular the match is the text of its groups, put together again. *)
Theorem match_here_iff_valid_encoding (s : string) (it : submatch)
    (rest : string) :
  match_here s = Some (it, rest)
  <-> exists e, enc_valid e = true /\ cannot_extend e rest = true
                /\ it = enc_item e /\ s = enc_text e +:+ rest.
Proof.
  split; [apply match_here_complete|].
  intros (e & Hv & Hx & -> & ->). by apply match_here_enc.
Qed.

Lemma match_here_iff_valid_encoding_witness :
  match_here "a:-1.5|ms|@0.5x"
  = Some (enc_item (mkEncoding "a" true "1.5" "ms" (Some "0.5")), "x").
Proof.
  apply (proj2 (match_here_iff_valid_encoding "a:-1.5|ms|@0.5x" _ "x")).
  exists (mkEncoding "a" true "1.5" "ms" (Some "0.5")). by repeat split.
Defined.

(** *** How many packets a datagram can give *)

Lemma nonempty_length (s : string) :
  nonempty s = true -> (1 <= String.length s)%nat.
Proof. destruct s; [done|]. simpl. lia. Qed.

Lemma enc_text_length (e : encoding) :
  enc_valid e = true -> (5 <= String.length (enc_text e))%nat.
Proof.
  unfold enc_valid, enc_text, enc_value. intros H.
  repeat (apply andb_prop in H as [H ?]).
  assert (1 <= String.length (enc_type e))%nat as Hty.
  { match goal with
    | Ht : _ || _ || _ = true |- _ =>
        repeat (apply orb_prop in Ht as [Ht|Ht]);
        apply String.eqb_eq in Ht; rewrite Ht; simpl; lia
    end. }
  rewrite !length_app_string.
  assert (1 <= String.length (enc_name e))%nat by by apply nonempty_length.
  assert (1 <= String.length (enc_num e))%nat by by apply nonempty_length.
  change (String.length ":") with 1%nat. change (String.length "|") with 1%nat.
  lia.
Qed.

Lemma find_all_from_bound (k : nat) (s : string) :
  (5 * length (find_all_from k s) <= String.length s - k)%nat.
Proof.
  revert k. induction s as [|c s IH]; intros k; [simpl; lia|].
  destruct k as [|k]; [|apply (IH k)]. cbn [find_all_from].
  destruct (match_here (String c s)) as [[it rest]|] eqn:E.
  - apply match_here_complete in E as (e & Hv & _ & -> & Hs).
    pose proof (enc_text_length e Hv) as H5.
    pose proof (IH (Nat.pred (String.length (item0 (enc_item e))))) as Hrec.
    apply (f_equal String.length) in Hs.
    rewrite length_app_string in Hs. simpl in *. lia.
  - pose proof (IH 0%nat). simpl. lia.
Qed.

(** X3.  A match takes at least five bytes and matches do not overlap: a
    datagram of [n] bytes gives at most [n / 5] packets, and none at all
    when fewer than five of its bytes survive the sanitizer. *)
Theorem packets_bounded_by_length (buf : string) :
  (5 * length (handleMessage buf) <= String.length (sanitize buf))%nat
  /\ (5 * length (handleMessage buf) <= String.length buf)%nat
  /\ ((String.length (sanitize buf) < 5)%nat -> handleMessage buf = []).
Proof.
  pose proof (find_all_from_bound 0 (sanitize buf)) as H.
  pose proof (sanitize_length buf) as Hl.
  rewrite handleMessage_length. unfold FindAllStringSubmatch.
  split; [lia|]. split; [lia|].
  intros Hlt. apply length_zero_iff_nil.
  rewrite handleMessage_length. unfold FindAllStringSubmatch. lia.
Qed.

Lemma packets_bounded_by_length_witness : handleMessage "a:1|" = [].
Proof.
  apply (proj2 (proj2 (packets_bounded_by_length "a:1|"))). simpl. lia.
Defined.

(** *** The packets that the decoder can produce *)

Lemma find_all_items (k : nat) (s : string) :
  Forall (fun it => exists e, enc_valid e = true /\ it = enc_item e)
         (find_all_from k s).
Proof.
  eapply Forall_impl; [apply find_all_from_matches|].
  intros it (s' & rest & (e & Hv & _ & -> & _)%match_here_complete). eauto.
Qed.

Lemma value_text_no_plus (v : string) :
  value_text v = true -> strip_prefix "+" v = None.
Proof.
  unfold value_text, strip_prefix, lit. destruct v as [|c v]; [done|].
  destruct (Ascii.eqb_spec "+" c) as [<-|]; [|done]. simpl. discriminate.
Qed.

(** X4.  Whatever the datagram, every packet sent to [monitor] has a
    non-empty bucket made of letters, digits, '_' and '.', one of the
    modifiers "c", "ms", "g", and a value made of digits and dots after an
    optional '-': never a value with a leading '+'. *)
Theorem decoded_packets_well_formed (buf : string) :
  Forall (fun s => nonempty (Bucket s) = true
                   /\ string_forall is_name (Bucket s) = true
                   /\ known_modifier (Modifier s) = true
                   /\ value_text (Value s) = true
                   /\ strip_prefix "+" (Value s) = None)
         (handleMessage buf).
Proof.
  pose proof (handleMessage_alphabet buf) as Hval.
  unfold handleMessage, FindAllStringSubmatch in *.
  apply Forall_map. apply Forall_map in Hval.
  pose proof (find_all_items 0 (sanitize buf)) as Hit.
  rewrite Forall_forall in *. intros it Hin.
  destruct (Hit it Hin) as (e & Hv & ->). specialize (Hval _ Hin).
  split; [|split; [|split; [|split]]]; try done.
  - unfold enc_valid in Hv. repeat (apply andb_prop in Hv as [Hv ?]).
    unfold packet_of_item.
    by destruct (ParseFloat F32.prec F32.emax (item5 (enc_item e))).
  - unfold enc_valid in Hv. repeat (apply andb_prop in Hv as [Hv ?]).
    unfold packet_of_item.
    by destruct (ParseFloat F32.prec F32.emax (item5 (enc_item e))).
  - unfold enc_valid in Hv. repeat (apply andb_prop in Hv as [Hv ?]).
    unfold packet_of_item, known_modifier.
    by destruct (ParseFloat F32.prec F32.emax (item5 (enc_item e))).
  - by apply value_text_no_plus.
Qed.

(** X5.  A timer value that [ParseFloat] refuses (two dots, a lone dot, a
    number beyond float32) does not drop the sample: the value is replaced
    by "0", so that the value of every decoded timer packet parses without
    error.  The value of a counter or of a gauge is passed on as captured. *)
Theorem timer_values_always_parse (buf : string) :
  Forall (fun s => Modifier s = "ms" ->
                   snd (ParseFloat F32.prec F32.emax (Value s)) = false)
         (handleMessage buf)
  /\ handleMessage "t:1.2.3|ms" = [mkPacket "t" "0" "ms" (F32.of_Z 1)]
  /\ handleMessage "t:1.2.3|c" = [mkPacket "t" "1.2.3" "c" (F32.of_Z 1)].
Proof.
  split; [|split; by vm_compute].
  unfold handleMessage. apply Forall_map, Forall_forall. intros it _.
  unfold packet_of_item.
  destruct (ParseFloat F32.prec F32.emax (item5 it)) as [rate err]. simpl.
  intros ->. simpl.
  by destruct (snd (ParseFloat F32.prec F32.emax (item2 it))) eqn:E.
Qed.

Lemma timer_values_always_parse_witness :
  snd (ParseFloat F32.prec F32.emax "0") = false.
Proof.
  pose proof (proj1 (timer_values_always_parse "t:.|ms")) as H.
  change (handleMessage "t:.|ms") with [mkPacket "t" "0" "ms" (F32.of_Z 1)] in H.
  exact (Forall_inv H eq_refl).
Defined.

(** *** The sample rate *)

Lemma shr_1_nonneg (mrs : shr_record) :
  0 <= shr_m mrs -> 0 <= shr_m (shr_1 mrs).
Proof. destruct mrs as [[|[p|p|]|p] r s]; simpl; lia. Qed.

Lemma iter_shr_1_nonneg (p : positive) (mrs : shr_record) :
  0 <= shr_m mrs -> 0 <= shr_m (SpecFloat.iter_pos shr_1 p mrs).
Proof.
  revert mrs. induction p as [p IH|p IH|]; intros mrs H; simpl.
  - by apply IH, IH, shr_1_nonneg.
  - by apply IH, IH.
  - by apply shr_1_nonneg.
Qed.

Lemma shr_fexp_nonneg (prec emax m e : Z) (l : location) :
  0 <= m -> 0 <= shr_m (fst (shr_fexp prec emax m e l)).
Proof.
  intros H. unfold shr_fexp, shr.
  assert (0 <= shr_m (shr_record_of_loc m l)) as H0
    by (by destruct l as [|[]]).
  destruct (fexp prec emax (Zdigits2 m + e) - e); simpl; try done.
  by apply iter_shr_1_nonneg.
Qed.

Lemma round_nearest_even_nonneg (m : Z) (l : location) :
  0 <= m -> 0 <= round_nearest_even m l.
Proof. intros H. destruct l as [|[]]; simpl; try destruct (Z.even m); lia. Qed.

(** Rounding a magnitude with the sign bit clear gives a zero, a finite
    number or an infinity with the sign bit clear: never a NaN. *)
Lemma binary_round_aux_nonneg (prec emax mx ex : Z) (lx : location) :
  0 <= mx ->
  match binary_round_aux prec emax false mx ex lx with
  | S754_zero false | S754_finite false _ _ | S754_infinity false => True
  | _ => False
  end.
Proof.
  intros H. unfold binary_round_aux.
  pose proof (shr_fexp_nonneg prec emax mx ex lx H) as H1.
  destruct (shr_fexp prec emax mx ex lx) as [mrs' e']. simpl in H1.
  pose proof (shr_fexp_nonneg prec emax _ e' loc_Exact
                (round_nearest_even_nonneg _ (loc_of_shr_record mrs') H1)) as H2.
  destruct (shr_fexp prec emax
              (round_nearest_even (shr_m mrs') (loc_of_shr_record mrs')) e'
              loc_Exact) as [mrs'' e'']. simpl in H2.
  destruct (shr_m mrs'') as [|p|p]; [done| |lia].
  by destruct (e'' <=? emax - prec).
Qed.

Lemma round_decimal_nonneg (prec emax mant : Z) (frac : nat) :
  match round_decimal prec emax false mant frac with
  | S754_zero false | S754_finite false _ _ | S754_infinity false => True
  | _ => False
  end.
Proof.
  unfold round_decimal. destruct mant as [|m|m]; [done| |done].
  unfold SFdiv, SFdiv_core_binary.
  match goal with
  | |- context [Z.div_eucl ?a ?b] =>
      pose proof (Z.div_pos a b) as Hq;
      change (a / b) with (fst (Z.div_eucl a b)) in Hq;
      destruct (Z.div_eucl a b) as [q r]
  end.
  simpl in Hq. apply binary_round_aux_nonneg. apply Hq; [|lia].
  match goal with
  | |- 0 <= match ?s with _ => _ end =>
      destruct s; [lia|apply Z.shiftl_nonneg; lia|lia]
  end.
Qed.

Lemma unsigned_head (A : Type) (c : ascii) (r : string) (f g : string -> A)
    (d : A) :
  is_num c = true ->
  match String c r with
  | String "-" r' => f r'
  | String "+" r' => g r'
  | _ => d
  end = d.
Proof.
  destruct c as [[] [] [] [] [] [] [] []]; try discriminate; reflexivity.
Qed.

(** [ParseFloat] on digits and dots: no NaN, no sign, and an infinity only
    together with an error. *)
Lemma ParseFloat_unsigned (prec emax : Z) (s : string) :
  string_forall is_num s = true ->
  let '(f, err) := ParseFloat prec emax s in
  if err then True else nonneg_finite f = true.
Proof.
  intros Hs. unfold ParseFloat.
  assert (match s with
          | String "-" r => (true, r)
          | String "+" r => (false, r)
          | _ => (false, s)
          end = (false, s)) as ->.
  { destruct s as [|c r]; [done|]. apply andb_prop in Hs as [Hc _].
    by apply (unsigned_head _ c r (fun r' => (true, r')) (fun r' => (false, r'))). }
  destruct (read_mantissa false false 0 0 s) as [[mant frac]|]; [|done].
  pose proof (round_decimal_nonneg prec emax mant frac) as H.
  by destruct (round_decimal prec emax false mant frac) as [[]|[]| |[] m e].
Qed.

(** X6.  The sample rate of a decoded packet is a float32 zero or positive
    finite number: never a NaN, never negative, never an infinity (a rate
    beyond float32 is replaced by 1, like an absent or malformed one).  Zero
    is not excluded. *)
Theorem decoded_sampling_nonneg_finite (buf : string) :
  Forall (fun s => nonneg_finite (Sampling s) = true) (handleMessage buf)
  /\ (exists s, handleMessage "a:1|c|@0.0" = [s] /\ Sampling s = S754_zero false)
  /\ (exists s, handleMessage "a:1|c|@1.2.3" = [s] /\ Sampling s = F32.of_Z 1).
Proof.
  split; [|split; eexists; split; by vm_compute].
  unfold handleMessage, FindAllStringSubmatch. apply Forall_map.
  eapply Forall_impl; [apply find_all_from_matches|].
  intros it (s' & rest & [_ Hr]%match_here_alphabet).
  unfold packet_of_item.
  pose proof (ParseFloat_unsigned F32.prec F32.emax _ Hr) as H.
  destruct (ParseFloat F32.prec F32.emax (item5 it)) as [rate []]; simpl; done.
Qed.

(** * Further properties of the consumer loop *)

Lemma lookup_ensure_key_ne {A} (zero : A) (m : gmap string A) (b k : string) :
  k <> b -> ensure_key zero m b !! k = m !! k.
Proof.
  intros Hne. unfold ensure_key. destruct (m !! b); [done|].
  by apply lookup_insert_ne.
Qed.

Lemma lookup_ensure_key_is_Some {A} (zero : A) (m : gmap string A)
    (b k : string) :
  is_Some (m !! k) -> is_Some (ensure_key zero m b !! k).
Proof.
  intros Hk. unfold ensure_key. destruct (m !! b) eqn:E; [done|].
  destruct (decide (b = k)) as [->|Hne].
  - rewrite E in Hk. by destruct Hk.
  - by rewrite lookup_insert_ne.
Qed.

(** X7.  A packet only touches its own bucket in the map of its own kind:
    the entries of every other bucket, and the two other maps as a whole,
    are left as they were. *)
Theorem apply_packet_frame (ind : Z) (s : Packet) (st : Store) :
  (forall k, k <> Bucket s ->
     counters (apply_packet ind s st) !! k = counters st !! k
     /\ timers (apply_packet ind s st) !! k = timers st !! k
     /\ gauges (apply_packet ind s st) !! k = gauges st !! k)
  /\ (Modifier s = "ms" ->
        counters (apply_packet ind s st) = counters st
        /\ gauges (apply_packet ind s st) = gauges st)
  /\ (Modifier s = "g" ->
        counters (apply_packet ind s st) = counters st
        /\ timers (apply_packet ind s st) = timers st)
  /\ (is_counter_packet s = true ->
        timers (apply_packet ind s st) = timers st
        /\ gauges (apply_packet ind s st) = gauges st).
Proof.
  unfold apply_packet, is_counter_packet. repeat split.
  - destruct (String.eqb (Modifier s) "ms"), (String.eqb (Modifier s) "g");
      simpl; try done; by rewrite lookup_insert_ne, lookup_ensure_key_ne.
  - destruct (String.eqb (Modifier s) "ms"), (String.eqb (Modifier s) "g");
      simpl; try done; by rewrite lookup_insert_ne, lookup_ensure_key_ne.
  - destruct (String.eqb (Modifier s) "ms"), (String.eqb (Modifier s) "g");
      simpl; try done; by rewrite lookup_insert_ne, lookup_ensure_key_ne.
  - by rewrite H.
  - by rewrite H.
  - by rewrite H.
  - by rewrite H.
  - apply andb_prop in H as [H1 H2]. apply negb_true_iff in H1, H2.
    by rewrite H1, H2.
  - apply andb_prop in H as [H1 H2]. apply negb_true_iff in H1, H2.
    by rewrite H1, H2.
Qed.

Lemma apply_packet_frame_witness :
  gauges (apply_packet amd64_indefinite (mkPacket "a" "1" "c" (F32.of_Z 1))
            (mkStore ∅ ∅ {["a" := 7]}))
  = {["a" := 7]}.
Proof.
  exact (proj2 (proj2 (proj2 (proj2 (apply_packet_frame amd64_indefinite
           (mkPacket "a" "1" "c" (F32.of_Z 1)) (mkStore ∅ ∅ {["a" := 7]}))))
           eq_refl)).
Defined.

Lemma apply_timer_packet (ind : Z) (s : Packet) (st : Store) :
  Modifier s = "ms" ->
  timers (apply_packet ind s st) !! Bucket s
  = Some (at_key [] (timers st) (Bucket s) ++ [observation s]).
Proof.
  intros H. unfold apply_packet. rewrite H. simpl.
  by rewrite lookup_insert_eq, at_key_ensure.
Qed.

(** X8.  The observations of a timer bucket are kept in the order in which
    the packets are received: after a run of timer packets for one bucket
    its list is the former list followed by their values, parsed as
    float64, one per packet. *)
Theorem timer_observations_in_arrival_order (ind : Z) (b : string)
    (ps : list Packet) (st : Store) :
  Forall (fun s => Bucket s = b /\ Modifier s = "ms") ps ->
  ps <> [] ->
  timers (apply_packets ind ps st) !! b
  = Some (at_key [] (timers st) b ++ map observation ps).
Proof.
  intros Hall. revert st. induction Hall as [|s ps [Hb Hm] Hall IH];
    intros st Hne; [done|].
  unfold apply_packets. simpl. fold (apply_packets ind ps (apply_packet ind s st)).
  pose proof (apply_timer_packet ind s st Hm) as Hs. rewrite Hb in Hs.
  destruct ps as [|s' ps'].
  - simpl. exact Hs.
  - rewrite IH by done. unfold at_key at 1. rewrite Hs. simpl.
    by rewrite <- app_assoc.
Qed.

Lemma timer_observations_in_arrival_order_witness :
  timers (apply_packets amd64_indefinite
            [mkPacket "t" "5" "ms" (F32.of_Z 1); mkPacket "t" "1" "ms" (F32.of_Z 1)]
            empty_store) !! "t"
  = Some (at_key [] (timers empty_store) "t"
          ++ map observation
               [mkPacket "t" "5" "ms" (F32.of_Z 1);
                mkPacket "t" "1" "ms" (F32.of_Z 1)]).
Proof.
  apply timer_observations_in_arrival_order; [|done].
  repeat constructor.
Defined.

(** *** Gauges *)

Lemma digit_val_range (c : ascii) : is_digit c = true -> 0 <= digit_val c <= 9.
Proof.
  unfold is_digit, byte_in, digit_val. intros [H1 H2]%andb_prop.
  apply N.leb_le in H1, H2. change (N_of_ascii "0") with 48%N in H1.
  change (N_of_ascii "9") with 57%N in H2. lia.
Qed.

Lemma digits_val_nonneg (s : string) (acc n : Z) :
  0 <= acc -> digits_val acc s = Some n -> 0 <= n.
Proof.
  revert acc. induction s as [|c s IH]; intros acc Hacc; simpl.
  - by intros [= <-].
  - destruct (is_digit c) eqn:Hc; [|done].
    apply IH. pose proof (digit_val_range c Hc). lia.
Qed.

(** [Atoi] returns an [int], whatever the text. *)
Lemma Atoi_in_int64 (s : string) : - 2 ^ 63 <= fst (Atoi s) < 2 ^ 63.
Proof.
  unfold Atoi.
  destruct (match s with
            | String "-" r => (true, r)
            | String "+" r => (false, r)
            | _ => (false, s)
            end) as [neg body].
  destruct body as [|c body]; [simpl; lia|].
  destruct (digits_val 0 (String c body)) as [n|] eqn:E; [|simpl; lia].
  apply digits_val_nonneg in E; [|lia].
  destruct neg.
  - destruct (2 ^ 63 <? n) eqn:Hn; simpl; [lia|]. apply Z.ltb_ge in Hn. lia.
  - destruct (2 ^ 63 <=? n) eqn:Hn; simpl; [lia|]. apply Z.leb_gt in Hn. lia.
Qed.

(** ... and a natural number when the text has no sign. *)
Lemma Atoi_unsigned (s : string) :
  string_forall is_num s = true -> 0 <= fst (Atoi s) < 2 ^ 63.
Proof.
  intros Hs. pose proof (Atoi_in_int64 s) as Hr. split; [|lia]. clear Hr.
  unfold Atoi.
  assert (match s with
          | String "-" r => (true, r)
          | String "+" r => (false, r)
          | _ => (false, s)
          end = (false, s)) as ->.
  { destruct s as [|c r]; [done|]. apply andb_prop in Hs as [Hc _].
    by apply (unsigned_head _ c r (fun r' => (true, r')) (fun r' => (false, r'))). }
  destruct s as [|c s]; [simpl; lia|].
  destruct (digits_val 0 (String c s)) as [n|] eqn:E; [|simpl; lia].
  apply digits_val_nonneg in E; [|lia].
  destruct (2 ^ 63 <=? n); simpl; lia.
Qed.

(** X9.  A gauge packet that comes out of the decoder can only set the
    gauge to a natural number or subtract a natural number from it: with a
    leading '-' the rest of the value is subtracted from the current value
    (0 for a new bucket), otherwise the value replaces it.  A datagram can
    therefore neither add to a gauge nor set one to a negative value
    directly. *)
Theorem decoded_gauge_sets_or_subtracts (ind : Z) (buf : string) (s : Packet)
    (st : Store) :
  s ∈ handleMessage buf -> Modifier s = "g" ->
  exists n, 0 <= n < 2 ^ 63 /\
    match strip_prefix "-" (Value s) with
    | Some _ =>
        gauges (apply_packet ind s st) !! Bucket s
        = Some (wrap64 (at_key 0 (gauges st) (Bucket s) - n))
    | None => gauges (apply_packet ind s st) !! Bucket s = Some n
    end.
Proof.
  intros Hin Hg.
  pose proof (decoded_packets_well_formed buf) as Hwf.
  rewrite Forall_forall in Hwf.
  destruct (Hwf s Hin) as (_ & _ & _ & Hval & Hplus).
  unfold apply_packet. rewrite Hg. simpl. rewrite Hplus.
  rewrite lookup_insert_eq, at_key_ensure.
  unfold value_text, strip_prefix in *.
  destruct (lit "-" (Value s)) as [rest|].
  - exists (fst (Atoi rest)). split; [by apply Atoi_unsigned|done].
  - exists (fst (Atoi (Value s))). split; [by apply Atoi_unsigned|done].
Qed.

Lemma decoded_gauge_sets_or_subtracts_witness :
  exists n, 0 <= n < 2 ^ 63 /\
    gauges (apply_packet amd64_indefinite (mkPacket "temp" "-5" "g" (F32.of_Z 1))
              (mkStore ∅ ∅ {["temp" := 3]})) !! "temp"
    = Some (wrap64 (at_key 0 ({["temp" := 3]} : gmap string Z) "temp" - n)).
Proof.
  refine (decoded_gauge_sets_or_subtracts amd64_indefinite "temp:-5|g"
            (mkPacket "temp" "-5" "g" (F32.of_Z 1))
            (mkStore ∅ ∅ {["temp" := 3]}) _ eq_refl).
  apply elem_of_cons. by left.
Defined.

(** *** Runs of the loop *)

Lemma apply_packet_keeps_keys (ind : Z) (s : Packet) (st : Store) (k : string) :
  (is_Some (counters st !! k) -> is_Some (counters (apply_packet ind s st) !! k))
  /\ (is_Some (timers st !! k) -> is_Some (timers (apply_packet ind s st) !! k))
  /\ (is_Some (gauges st !! k) -> is_Some (gauges (apply_packet ind s st) !! k)).
Proof.
  unfold apply_packet.
  destruct (String.eqb (Modifier s) "ms"), (String.eqb (Modifier s) "g");
    simpl; repeat split; try done; intros Hk;
    (destruct (decide (Bucket s = k)) as [<-|Hne];
     [by rewrite lookup_insert_eq
     |rewrite lookup_insert_ne by done; by apply lookup_ensure_key_is_Some]).
Qed.

Lemma flushed_keeps_keys (st : Store) (k : string) :
  (is_Some (counters st !! k) <-> is_Some (counters (flushed st) !! k))
  /\ (is_Some (timers st !! k) <-> is_Some (timers (flushed st) !! k))
  /\ (is_Some (gauges st !! k) <-> is_Some (gauges (flushed st) !! k)).
Proof.
  unfold flushed. simpl. rewrite !lookup_fmap, !fmap_is_Some. done.
Qed.

Lemma monitor_step_keeps_keys (ind : Z) (cfg : Config) (ev : event)
    (st st' : Store) (out : option (list Line)) (k : string) :
  monitor_step ind cfg ev st = Some (st', out) ->
  (is_Some (counters st !! k) -> is_Some (counters st' !! k))
  /\ (is_Some (timers st !! k) -> is_Some (timers st' !! k))
  /\ (is_Some (gauges st !! k) -> is_Some (gauges st' !! k)).
Proof.
  destruct ev as [now|s]; simpl.
  - destruct (submit cfg now st) as [[o st1]|] eqn:E; [|done].
    simpl. intros [= <- <-]. apply submit_inv in E as [-> _].
    pose proof (flushed_keeps_keys st k) as (H1 & H2 & H3).
    repeat split; [apply H1|apply H2|apply H3].
  - intros [= <- <-]. apply apply_packet_keeps_keys.
Qed.

(** X10.  No run of [monitor] ever removes a bucket: a key present in one
    of the three maps is still present after any sequence of packets and
    flushes (the store only grows, until the process ends). *)
Theorem buckets_are_never_removed (ind : Z) (cfg : Config) (evs : list event)
    (st st' : Store) (outs : list (list Line)) (k : string) :
  monitor ind cfg evs st = Some (st', outs) ->
  (is_Some (counters st !! k) -> is_Some (counters st' !! k))
  /\ (is_Some (timers st !! k) -> is_Some (timers st' !! k))
  /\ (is_Some (gauges st !! k) -> is_Some (gauges st' !! k)).
Proof.
  revert st st' outs. induction evs as [|ev evs IH]; intros st st' outs.
  - by intros [= <- <-].
  - cbn [monitor].
    destruct (monitor_step ind cfg ev st) as [[st1 out]|] eqn:E1; [|done].
    simpl. destruct (monitor ind cfg evs st1) as [[st2 outs2]|] eqn:E2; [|done].
    simpl. intros [= <- <-].
    destruct (monitor_step_keeps_keys _ _ _ _ _ _ k E1) as (H1 & H2 & H3).
    destruct (IH _ _ _ E2) as (G1 & G2 & G3). auto.
Qed.

Lemma buckets_are_never_removed_witness :
  is_Some (counters (mkStore {["a" := 0]} ∅ {["g" := 1]}) !! "a").
Proof.
  refine (proj1 (buckets_are_never_removed amd64_indefinite default_config
            [Recv (mkPacket "g" "1" "g" (F32.of_Z 1)); Tick 0]
            (mkStore {["a" := 5]} ∅ ∅) (mkStore {["a" := 0]} ∅ {["g" := 1]})
            _ "a" _) _).
  - by vm_compute.
  - eexists. by vm_compute.
Defined.

Lemma monitor_app (ind : Z) (cfg : Config) (evs1 evs2 : list event)
    (st : Store) :
  monitor ind cfg (evs1 ++ evs2) st
  = '(st1, o1) ← monitor ind cfg evs1 st;
    '(st2, o2) ← monitor ind cfg evs2 st1;
    Some (st2, o1 ++ o2).
Proof.
  revert st. induction evs1 as [|ev evs1 IH]; intros st.
  - simpl. by destruct (monitor ind cfg evs2 st) as [[st2 o2]|].
  - cbn [app monitor].
    destruct (monitor_step ind cfg ev st) as [[st1 out]|]; [|done]. simpl.
    rewrite IH.
    destruct (monitor ind cfg evs1 st1) as [[st2 o1]|]; [|done]. simpl.
    destruct (monitor ind cfg evs2 st2) as [[st3 o2]|]; [|done]. simpl.
    by destruct out.
Qed.



(** *** Integers stay integers *)








(** X13.  Counts do not leak from one flush window into the next: whatever
    was received before a flush, the count of a bucket after the flush and a
    run of counter packets for it is the (wrapped) sum of the increments of
    these packets alone. *)
Theorem counts_restart_after_flush (ind : Z) (cfg : Config) (now : Z)
    (b : string) (ps1 ps2 : list Packet) (st st' : Store)
    (outs : list (list Line)) :
  Forall (fun s => Bucket s = b /\ is_counter_packet s = true) ps2 ->
  monitor ind cfg (map Recv ps1 ++ [Tick now] ++ map Recv ps2) st
  = Some (st', outs) ->
  at_key 0 (counters st') b = wrap64 (sum_increments ind ps2)
  /\ length outs = 1%nat.
Proof.
  intros Hall. rewrite !monitor_app, !monitor_receive. simpl.
  destruct (submit cfg now (apply_packets ind ps1 st)) as [[o s1]|] eqn:E;
    [|done].
  simpl. rewrite monitor_receive. simpl. intros [= <- <-]. split; [|done].
  apply submit_inv in E as [-> _].
  assert (at_key 0 (counters (flushed (apply_packets ind ps1 st))) b = 0) as H0.
  { unfold at_key, flushed. simpl. rewrite lookup_fmap.
    by destruct (counters (apply_packets ind ps1 st) !! b). }
  destruct ps2 as [|s ps2]; [exact H0|].
  rewrite (apply_counter_packets ind b) by done. by rewrite H0.
Qed.

Lemma counts_restart_after_flush_witness :
  at_key 0 ({["a" := 2]} : gmap string Z) "a"
  = wrap64 (sum_increments amd64_indefinite [mkPacket "a" "2" "c" (F32.of_Z 1)]).
Proof.
  refine (proj1 (counts_restart_after_flush amd64_indefinite default_config 0
            "a" [mkPacket "a" "40" "c" (F32.of_Z 1)]
            [mkPacket "a" "2" "c" (F32.of_Z 1)]
            empty_store (mkStore {["a" := 2]} ∅ ∅) _ _ _)).
  - repeat constructor.
  - by vm_compute.
Defined.

(** * Further properties of the flush *)

Lemma flush_timers_lines (cfg : Config) (now : Z)
    (l : list (string * list float)) (fs fs' : flush_state) :
  fold_panic (flush_timer cfg now) l fs = Some fs' ->
  fl_buffer fs'
  = fl_buffer fs
    ++ flat_map (fun kv => timer_lines cfg now kv.1 (timer_report cfg kv.2)) l.
Proof.
  revert fs. induction l as [|[u t] l IH]; intros fs H.
  - injection H as <-. simpl. by rewrite app_nil_r.
  - cbn [fold_panic] in H.
    destruct (flush_timer cfg now fs (u, t)) as [fs1|] eqn:E1; [|done].
    simpl in H. rewrite (IH _ H). clear IH H.
    unfold flush_timer in E1. destruct t as [|x t].
    + injection E1 as <-. simpl. by rewrite <- app_assoc.
    + destruct (timer_summary cfg (x :: t)) as [r|] eqn:Er; [|done].
      injection E1 as <-. cbn [flat_map fst snd timer_report fl_buffer].
      rewrite Er. simpl. by rewrite <- app_assoc.
Qed.

Lemma flush_timers_panic (cfg : Config) (now : Z)
    (l : list (string * list float)) (fs : flush_state) (u : string)
    (t : list float) :
  (u, t) ∈ l -> t <> [] -> timer_summary cfg t = None ->
  fold_panic (flush_timer cfg now) l fs = None.
Proof.
  intros Hin Hne Hnone. revert fs.
  induction l as [|[v t'] l IH]; intros fs; [by apply elem_of_nil in Hin|].
  cbn [fold_panic]. apply elem_of_cons in Hin as [[= <- <-]|Hin].
  - unfold flush_timer. destruct t; [done|]. by rewrite Hnone.
  - destruct (flush_timer cfg now fs (v, t')); [|done]. simpl. by apply IH.
Qed.

(** X14.  [submit] in closed form.  When the summary of every timer bucket
    can be computed the flush completes, writes for each counter its rate
    and count, for each gauge its value, for each timer its five statistics,
    then numStats, in this order, and leaves the store with its counters
    at 0 and its timers empty.  When the summary of one bucket cannot (the
    slice expression is out of range) the flush panics as a whole. *)
Theorem submit_closed_form (cfg : Config) (now : Z) (st : Store) :
  ((forall u t, timers st !! u = Some t -> is_Some (timer_summary cfg t)) ->
   submit cfg now st = Some (flush_lines cfg now st, flushed st))
  /\ (forall u t, timers st !! u = Some t -> t <> [] ->
        timer_summary cfg t = None -> submit cfg now st = None).
Proof.
  split.
  - intros Hok.
    destruct (submit cfg now st) as [[out st']|] eqn:E.
    + pose proof (submit_inv _ _ _ _ _ E) as [-> _]. f_equal. f_equal.
      unfold submit in E.
      rewrite flush_counters_fold, flush_gauges_fold in E. simpl in E.
      match type of E with
      | context [fold_panic ?f ?l ?a] =>
          destruct (fold_panic f l a) as [fs3|] eqn:E3; [|done]
      end.
      simpl in E. injection E as <- _.
      pose proof (flush_timers_fold _ _ _ _ _ E3) as (_ & Hn & _).
      rewrite (flush_timers_lines _ _ _ _ _ E3), Hn. simpl.
      unfold flush_lines. rewrite !length_map_to_list, <- !app_assoc.
      do 4 f_equal; lia.
    + exfalso. unfold submit in E.
      match type of E with
      | context [fold_panic ?f ?l ?a] =>
          destruct (flush_timers_total cfg now l a) as [fs3 E3]
      end.
      * intros u t Hu%elem_of_map_to_list. by apply (Hok u).
      * by rewrite E3 in E.
  - intros u t Hu Hne Hnone. unfold submit.
    erewrite flush_timers_panic; [done| |done|done].
    by apply elem_of_map_to_list.
Qed.

Lemma submit_closed_form_witness :
  submit default_config 5 (mkStore {["a" := 3]} {["t" := [F64.of_Z 2]]} ∅)
  = Some (flush_lines default_config 5
            (mkStore {["a" := 3]} {["t" := [F64.of_Z 2]]} ∅),
          flushed (mkStore {["a" := 3]} {["t" := [F64.of_Z 2]]} ∅)).
Proof.
  apply (proj1 (submit_closed_form default_config 5
                  (mkStore {["a" := 3]} {["t" := [F64.of_Z 2]]} ∅))).
  intros u t Ht. simpl in Ht. apply lookup_singleton_Some in Ht as [_ <-].
  by eexists.
Defined.

Lemma submit_lines (cfg : Config) (now : Z) (st st' : Store)
    (out : list Line) :
  submit cfg now st = Some (out, st') -> out = flush_lines cfg now st.
Proof.
  intros E.
  assert (forall u t, timers st !! u = Some t -> is_Some (timer_summary cfg t))
    as Hok.
  { intros u t Hu. destruct (timer_summary cfg t) eqn:Et; [by eexists|].
    destruct t as [|x t]; [by vm_compute in Et|].
    by rewrite (proj2 (submit_closed_form cfg now st) u (x :: t)) in E. }
  rewrite (proj1 (submit_closed_form cfg now st) Hok) in E. by injection E.
Qed.

Lemma flat_map_length_const {A B} (f : A -> list B) (n : nat) (l : list A) :
  (forall x, length (f x) = n) -> length (flat_map f l) = (n * length l)%nat.
Proof.
  intros Hf. induction l as [|x l IH]; simpl; [lia|].
  rewrite length_app, Hf, IH. lia.
Qed.

(** X15.  A flush writes two lines per counter bucket, one per gauge
    bucket, five per timer bucket and one for numStats, and every line
    carries the one time stamp taken at the start of the flush. *)
Theorem flush_line_count_and_time (cfg : Config) (now : Z) (st st' : Store)
    (out : list Line) :
  submit cfg now st = Some (out, st') ->
  length out = (2 * size (counters st) + size (gauges st)
                + 5 * size (timers st) + 1)%nat
  /\ Forall (fun l => line_time l = now) out.
Proof.
  intros ->%submit_lines. unfold flush_lines. split.
  - rewrite !length_app.
    rewrite (flat_map_length_const _ 2), (flat_map_length_const _ 1),
      (flat_map_length_const _ 5), !length_map_to_list by done.
    simpl. lia.
  - rewrite !Forall_app. repeat split.
    + apply Forall_flat_map, Forall_forall. intros kv _. by repeat constructor.
    + apply Forall_flat_map, Forall_forall. intros kv _. by repeat constructor.
    + apply Forall_flat_map, Forall_forall. intros kv _. by repeat constructor.
    + by repeat constructor.
Qed.

Lemma flush_line_count_and_time_witness :
  length [ mkLine "stats.hits" (VFloat F64.zero) 10;
           mkLine "stats.counters.hits" (VInt 0) 10;
           mkLine "stats.gauges.temp" (VInt 7) 10;
           mkLine "stats.statsd.numStats" (VInt 2) 10 ]
  = 4%nat.
Proof.
  refine (proj1 (flush_line_count_and_time default_config 10
            (mkStore {["hits" := 0]} ∅ {["temp" := 7]})
            (mkStore {["hits" := 0]} ∅ {["temp" := 7]}) _ _)).
  by vm_compute.
Defined.

(** X16.  The lines of a flush are exactly those of the buckets of the
    store and numStats: a line is written if and only if it is one of the
    two lines of a counter bucket, the line of a gauge bucket (its stored
    value, unchanged), one of the five lines of a timer bucket, or the
    numStats line.  Nothing is written for a bucket that the store does not
    hold. *)
Theorem flush_lines_are_those_of_the_store (cfg : Config) (now : Z)
    (st st' : Store) (out : list Line) (l : Line) :
  submit cfg now st = Some (out, st') ->
  l ∈ out <->
    (exists s c, counters st !! s = Some c /\ l ∈ counter_lines cfg now (s, c))
    \/ (exists i g, gauges st !! i = Some g
                    /\ l = mkLine (gaugesPrefix cfg +:+ i) (VInt g) now)
    \/ (exists u t, timers st !! u = Some t
                    /\ l ∈ timer_lines cfg now u (timer_report cfg t))
    \/ l = mkLine (statsPrefix cfg +:+ "statsd.numStats")
                  (VInt (Z.of_nat (size (counters st))
                         + Z.of_nat (size (gauges st))
                         + Z.of_nat (size (timers st)))) now.
Proof.
  intros ->%submit_lines. unfold flush_lines.
  rewrite !elem_of_app, !list_elem_of_In, !in_flat_map.
  setoid_rewrite <- list_elem_of_In.
  split.
  - intros [([s c] & Hs & Hl)|[([i g] & Hi & Hl)|[([u t] & Hu & Hl)|Hl]]].
    + left. exists s, c. split; [by apply elem_of_map_to_list|done].
    + right; left. exists i, g. split; [by apply elem_of_map_to_list|].
      by apply list_elem_of_singleton in Hl.
    + right; right; left. exists u, t.
      split; [by apply elem_of_map_to_list|done].
    + right; right; right. by apply list_elem_of_singleton in Hl.
  - intros [(s & c & Hs & Hl)|[(i & g & Hi & ->)|[(u & t & Hu & Hl)| ->]]].
    + left. exists (s, c). split; [by apply elem_of_map_to_list|done].
    + right; left. exists (i, g). split; [by apply elem_of_map_to_list|].
      by apply list_elem_of_singleton.
    + right; right; left. exists (u, t).
      split; [by apply elem_of_map_to_list|done].
    + right; right; right. by apply list_elem_of_singleton.
Qed.

Lemma flush_lines_are_those_of_the_store_witness :
  mkLine "stats.gauges.temp" (VInt (-7)) 10
    ∈ [ mkLine "stats.gauges.temp" (VInt (-7)) 10;
        mkLine "stats.statsd.numStats" (VInt 1) 10 ].
Proof.
  refine (proj2 (flush_lines_are_those_of_the_store default_config 10
            (mkStore ∅ ∅ {["temp" := -7]}) (mkStore ∅ ∅ {["temp" := -7]})
            _ _ _) _).
  - by vm_compute.
  - right; left. exists "temp", (-7). by split.
Defined.

(** *** When a flush panics *)

Lemma timer_summary_negative_slice (cfg : Config) (t : list float) :
  - 2 ^ 32 <= percentThreshold cfg <= - 100 ->
  (2 <= length t)%nat -> Z.of_nat (length t) < 2 ^ 31 ->
  timer_summary cfg t = None.
Proof.
  intros HP Hlen Hmax. unfold timer_summary, thresholdIndex.
  rewrite Float64s_length.
  assert ((1 <? Z.of_nat (length t)) = true) as -> by (apply Z.ltb_lt; lia).
  rewrite (wrap64_small (100 - percentThreshold cfg)) by lia.
  set (q := Z.quot (100 - percentThreshold cfg) 100).
  set (n := Z.of_nat (length t)) in *.
  assert (2 <= q < 2 ^ 26) as Hq.
  { subst q. clear Hmax. Z.to_euclidean_division_equations. lia. }
  assert (0 <= q * n < 2 ^ 57 /\ 2 * n <= q * n) as [Hqn Hqn2] by nia.
  rewrite (wrap64_small (q * n)) by lia.
  rewrite (wrap64_small (n - q * n)) by lia.
  assert ((0 <=? n - q * n) = false) as -> by (apply Z.leb_gt; lia).
  done.
Qed.

(** X17.  With a percentile threshold of -100 or less the flush panics as
    soon as one timer bucket holds two observations or more: the number of
    values to keep is negative and the slice expression [t[0:n]] is out of
    range.  The flush does not complete: nothing reaches the line sink and
    the store is not reset. *)
Theorem flush_panics_on_threshold_below_minus_99 (cfg : Config) (now : Z)
    (st : Store) (u : string) (t : list float) :
  - 2 ^ 32 <= percentThreshold cfg <= - 100 ->
  timers st !! u = Some t ->
  (2 <= length t)%nat -> Z.of_nat (length t) < 2 ^ 31 ->
  submit cfg now st = None.
Proof.
  intros HP Hu Hlen Hmax.
  apply (proj2 (submit_closed_form cfg now st) u t Hu).
  - intros ->. simpl in Hlen. lia.
  - by apply timer_summary_negative_slice.
Qed.

Lemma flush_panics_on_threshold_below_minus_99_witness :
  submit (mkConfig 10 (-100) "stats." "stats.counters." "stats.gauges."
                   "stats.timers.") 0
         (mkStore ∅ {["t" := [F64.of_Z 1; F64.of_Z 2]]} ∅)
  = None.
Proof.
  apply (flush_panics_on_threshold_below_minus_99 _ 0 _ "t"
           [F64.of_Z 1; F64.of_Z 2]); [simpl; lia|done|simpl; lia|simpl; lia].
Defined.

Lemma timer_summary_short (cfg : Config) (t : list float) :
  (length t <= 1)%nat ->
  timer_summary cfg t
  = Some (match t with
          | x :: _ => mkTimerStats x x x x 1
          | [] => mkTimerStats F64.zero F64.zero F64.zero F64.zero 0
          end).
Proof.
  destruct t as [|x [|y t]]; [done|done|]. simpl. lia.
Qed.

Lemma flushed_flushed (st : Store) : flushed (flushed st) = flushed st.
Proof.
  unfold flushed. simpl. f_equal; by rewrite <- map_fmap_compose.
Qed.

(** X18.  Whatever the percentile threshold, a flush cannot panic unless
    a timer bucket holds at least two observations: a single observation is
    reported as its own mean, upper and lower bound, with count 1, without
    any use of the threshold.  In particular the flush that follows a flush
    without intervening packets always completes, and it leaves the store
    as the first flush left it. *)
Theorem flush_completes_without_two_observations (cfg : Config) (now : Z)
    (st : Store) :
  ((forall u t, timers st !! u = Some t -> (length t <= 1)%nat) ->
   submit cfg now st = Some (flush_lines cfg now st, flushed st))
  /\ (forall x, timer_summary cfg [x] = Some (mkTimerStats x x x x 1))
  /\ submit cfg now (flushed st)
     = Some (flush_lines cfg now (flushed st), flushed st).
Proof.
  assert (forall st0 : Store,
            (forall u t, timers st0 !! u = Some t -> (length t <= 1)%nat) ->
            submit cfg now st0 = Some (flush_lines cfg now st0, flushed st0))
    as Hshort.
  { intros st0 H. apply submit_closed_form. intros u t Hu.
    rewrite timer_summary_short by by apply (H u). by eexists. }
  split; [apply Hshort|]. split; [done|].
  rewrite <- (flushed_flushed st) at 3. apply Hshort.
  intros u t. unfold flushed. simpl. rewrite lookup_fmap.
  destruct (timers st !! u); intros [= <-]. simpl. lia.
Qed.

Lemma flush_completes_without_two_observations_witness :
  submit (mkConfig 10 (-500) "" "" "" "") 0 (mkStore ∅ {["t" := [F64.of_Z 4]]} ∅)
  = Some (flush_lines (mkConfig 10 (-500) "" "" "" "") 0
            (mkStore ∅ {["t" := [F64.of_Z 4]]} ∅),
          flushed (mkStore ∅ {["t" := [F64.of_Z 4]]} ∅)).
Proof.
  apply (proj1 (flush_completes_without_two_observations
                  (mkConfig 10 (-500) "" "" "" "") 0
                  (mkStore ∅ {["t" := [F64.of_Z 4]]} ∅))).
  intros u t Ht. simpl in Ht. apply lookup_singleton_Some in Ht as [_ <-].
  simpl. lia.
Defined.

(** X19.  The percentile threshold only has three regimes.  From 1 to 199
    nothing is trimmed.  From -99 to 0 everything is: the mean is that of
    no value at all, 0/0, a NaN, while upper, upper_P, lower and count are
    still those of all the observations.  (At -100 and below the flush
    panics.)  No threshold yields the mean of the lowest P percent. *)
Theorem threshold_regimes (cfg : Config) (t : list float) :
  (2 <= length t)%nat -> Z.of_nat (length t) < 2 ^ 63 ->
  (1 <= percentThreshold cfg < 200 ->
   exists r, timer_summary cfg t = Some r
     /\ ts_mean r = F64.div (float_sum (Float64s t))
                            (F64.of_Z (Z.of_nat (length t))))
  /\ (- 100 < percentThreshold cfg <= 0 ->
      exists r, timer_summary cfg t = Some r
        /\ ts_mean r = S754_nan
        /\ ts_max r = List.last (Float64s t) F64.zero
        /\ ts_maxAtThreshold r = ts_max r
        /\ ts_min r = hd F64.zero (Float64s t)
        /\ ts_count r = Z.of_nat (length t)).
Proof.
  intros Hlen Hmax.
  assert ((1 <? Z.of_nat (length t)) = true) as H1 by (apply Z.ltb_lt; lia).
  split; intros HP.
  - assert (thresholdIndex cfg (Z.of_nat (length t)) = 0) as Hidx.
    { unfold thresholdIndex.
      rewrite (wrap64_small (100 - percentThreshold cfg)) by lia.
      assert (Z.quot (100 - percentThreshold cfg) 100 = 0) as ->; [|done].
      clear Hmax H1. Z.to_euclidean_division_equations. lia. }
    unfold timer_summary. rewrite Float64s_length, H1, Hidx.
    rewrite Z.sub_0_r, wrap64_small, slice_bounds_ok by lia.
    eexists. split; [reflexivity|]. simpl.
    by rewrite Nat2Z.id, <- (Float64s_length t), firstn_all, Float64s_length.
  - assert (thresholdIndex cfg (Z.of_nat (length t)) = Z.of_nat (length t))
      as Hidx.
    { unfold thresholdIndex.
      rewrite (wrap64_small (100 - percentThreshold cfg)) by lia.
      assert (Z.quot (100 - percentThreshold cfg) 100 = 1) as ->.
      { clear Hmax H1. Z.to_euclidean_division_equations. lia. }
      rewrite Z.mul_1_l. apply wrap64_small. lia. }
    unfold timer_summary. rewrite Float64s_length, H1, Hidx.
    rewrite Z.sub_diag. change (wrap64 0) with 0.
    rewrite slice_bounds_ok by lia.
    eexists. split; [reflexivity|]. by simpl.
Qed.

Lemma threshold_regimes_witness :
  exists r, timer_summary (mkConfig 10 0 "" "" "" "") [F64.of_Z 1; F64.of_Z 3]
            = Some r
    /\ ts_mean r = S754_nan
    /\ ts_max r = List.last (Float64s [F64.of_Z 1; F64.of_Z 3]) F64.zero
    /\ ts_maxAtThreshold r = ts_max r
    /\ ts_min r = hd F64.zero (Float64s [F64.of_Z 1; F64.of_Z 3])
    /\ ts_count r = 2.
Proof.
  apply (proj2 (threshold_regimes (mkConfig 10 0 "" "" "" "")
                  [F64.of_Z 1; F64.of_Z 3] ltac:(simpl; lia) ltac:(simpl; lia)));
    simpl; lia.
Defined.

(** * The second sink *)

Lemma Forall2_flat_map {A B C} (R : B -> C -> Prop) (f : A -> list B)
    (g : A -> list C) (l : list A) :
  (forall x, Forall2 R (f x) (g x)) ->
  Forall2 R (flat_map f l) (flat_map g l).
Proof.
  intros H. induction l as [|x l IH]; simpl; [constructor|].
  by apply Forall2_app.
Qed.

(** X20.  With ganglia configured, a completed flush makes one
    [SendMetric] call per line that it writes, in the same order, with the
    same value: but an integer is converted to [uint32] on the way, so that
    the two sinks agree on the floats and on the integers from 0 to
    2^32 - 1 only.  Without ganglia no call is made. *)
Theorem ganglia_calls_mirror_lines (cfg : Config) (now : Z) (st st' : Store)
    (out : list Line) :
  submit cfg now st = Some (out, st') ->
  Forall2 mirrors (ganglia_calls true cfg st) out
  /\ ganglia_calls false cfg st = [].
Proof.
  intros ->%submit_lines. unfold ganglia_calls, flush_lines. split.
  - repeat apply Forall2_app.
    + apply Forall2_flat_map. intros kv. by repeat constructor.
    + apply Forall2_flat_map. intros kv. by repeat constructor.
    + apply Forall2_flat_map. intros kv. by repeat constructor.
    + by repeat constructor.
  - simpl. rewrite app_nil_r.
    assert (forall {A} (l : list A), flat_map (fun _ => @nil GmCall) l = [])
      as Hnil by (intros A l; by induction l).
    unfold counter_calls, gauge_calls, timer_calls. simpl.
    by rewrite !Hnil.
Qed.

Lemma ganglia_calls_mirror_lines_witness :
  Forall2 mirrors
    (ganglia_calls true default_config (mkStore ∅ ∅ {["temp" := -1]}))
    [ mkLine "stats.gauges.temp" (VInt (-1)) 10;
      mkLine "stats.statsd.numStats" (VInt 1) 10 ].
Proof.
  refine (proj1 (ganglia_calls_mirror_lines default_config 10
            (mkStore ∅ ∅ {["temp" := -1]}) (mkStore ∅ ∅ {["temp" := -1]})
            _ _)).
  by vm_compute.
Defined.

Lemma elem_of_flat_map_intro {A B} (f : A -> list B) (l : list A) (x : A)
    (y : B) :
  x ∈ l -> y ∈ f x -> y ∈ flat_map f l.
Proof.
  intros Hx Hy. apply list_elem_of_In, in_flat_map. exists x.
  split; by apply list_elem_of_In.
Qed.

(** X21.  A gauge is sent to ganglia modulo 2^32: a negative gauge, which
    the line sink prints as it is, reaches ganglia as a positive number
    (-1 as 4294967295). *)
Theorem negative_gauge_sent_as_positive (cfg : Config) (st : Store)
    (i : string) (g : Z) :
  gauges st !! i = Some g ->
  mkGmCall ("stats_" +:+ i) (VInt (g mod 2 ^ 32)) VALUE_UNSIGNED_INT "count"
           (m_ival cfg) "statsd"
    ∈ ganglia_calls true cfg st
  /\ 0 <= g mod 2 ^ 32 < 2 ^ 32
  /\ (- 2 ^ 32 <= g < 0 -> g mod 2 ^ 32 = g + 2 ^ 32).
Proof.
  intros Hg. split; [|split].
  - unfold ganglia_calls. apply elem_of_app; right. apply elem_of_app; left.
    apply (elem_of_flat_map_intro _ _ (i, g));
      [by apply elem_of_map_to_list|].
    apply elem_of_cons. by left.
  - apply Z.mod_pos_bound. lia.
  - intros Hneg. symmetry. apply Z.mod_unique with (q := -1); lia.
Qed.

Lemma negative_gauge_sent_as_positive_witness :
  mkGmCall "stats_temp" (VInt ((-1) mod 2 ^ 32)) VALUE_UNSIGNED_INT "count"
           (m_ival default_config) "statsd"
    ∈ ganglia_calls true default_config (mkStore ∅ ∅ {["temp" := -1]}).
Proof.
  exact (proj1 (negative_gauge_sent_as_positive default_config
                  (mkStore ∅ ∅ {["temp" := -1]}) "temp" (-1) eq_refl)).
Defined.

(** X22.  The names given to ganglia ignore the configured prefixes and
    do not tell a gauge from the rate of a counter: a bucket name used both
    for a counter and for a gauge is sent twice under the one name
    [stats_<bucket>], once as a double (the rate) and once as an unsigned
    integer (the gauge). *)
Theorem ganglia_name_shared_by_counter_and_gauge (cfg : Config) (st : Store)
    (s : string) (c g : Z) :
  counters st !! s = Some c -> gauges st !! s = Some g ->
  exists call1 call2,
    call1 ∈ ganglia_calls true cfg st /\ call2 ∈ ganglia_calls true cfg st
    /\ gm_name call1 = "stats_" +:+ s /\ gm_name call2 = "stats_" +:+ s
    /\ gm_value call1 = VFloat (counter_rate cfg c)
    /\ gm_value call2 = VInt (uint32 g).
Proof.
  intros Hc Hg.
  exists (mkGmCall ("stats_" +:+ s) (VFloat (counter_rate cfg c)) VALUE_DOUBLE
                   "count" (m_ival cfg) "statsd"),
         (mkGmCall ("stats_" +:+ s) (VInt (uint32 g)) VALUE_UNSIGNED_INT
                   "count" (m_ival cfg) "statsd").
  repeat split.
  - unfold ganglia_calls. apply elem_of_app; left.
    apply (elem_of_flat_map_intro _ _ (s, c));
      [by apply elem_of_map_to_list|].
    apply elem_of_cons. by left.
  - unfold ganglia_calls. apply elem_of_app; right. apply elem_of_app; left.
    apply (elem_of_flat_map_intro _ _ (s, g));
      [by apply elem_of_map_to_list|].
    apply elem_of_cons. by left.
Qed.

Lemma ganglia_name_shared_by_counter_and_gauge_witness :
  exists call1 call2,
    call1 ∈ ganglia_calls true default_config
              (mkStore {["x" := 4]} ∅ {["x" := 9]})
    /\ call2 ∈ ganglia_calls true default_config
                 (mkStore {["x" := 4]} ∅ {["x" := 9]})
    /\ gm_name call1 = "stats_" +:+ "x" /\ gm_name call2 = "stats_" +:+ "x"
    /\ gm_value call1 = VFloat (counter_rate default_config 4)
    /\ gm_value call2 = VInt (uint32 9).
Proof.
  exact (ganglia_name_shared_by_counter_and_gauge default_config
           (mkStore {["x" := 4]} ∅ {["x" := 9]}) "x" 4 9 eq_refl eq_refl).
Defined.

(** * Further properties of timers and of the order of packets *)

(** X23.  Whatever the percentile threshold, the statistics that a flush
    reports for a timer bucket with observations satisfy: upper_P is equal
    to upper (the threshold never lowers it), count is the number of
    observations, and every observation lies between lower and upper. *)
Theorem timer_summary_invariants (cfg : Config) (t : list float)
    (r : timer_stats) :
  timer_summary cfg t = Some r ->
  ts_maxAtThreshold r = ts_max r
  /\ ts_count r = Z.of_nat (length t)
  /\ ts_max r = List.last (Float64s t) F64.zero
  /\ ts_min r = hd F64.zero (Float64s t)
  /\ Forall (fun x => float_le (ts_min r) x /\ float_le x (ts_max r)) t.
Proof.
  unfold timer_summary. rewrite Float64s_length. intros H.
  assert (ts_maxAtThreshold r = ts_max r
          /\ ts_count r = Z.of_nat (length t)
          /\ ts_max r = List.last (Float64s t) F64.zero
          /\ ts_min r = hd F64.zero (Float64s t)) as (H1 & H2 & H3 & H4).
  { destruct (1 <? Z.of_nat (length t)).
    - match type of H with
      | (if ?b then _ else _) = _ => destruct b; [|done]
      end.
      by injection H as <-.
    - by injection H as <-. }
  repeat split; try done. rewrite H3, H4. apply Float64s_bounds.
Qed.

Lemma timer_summary_invariants_witness :
  ts_maxAtThreshold
    (mkTimerStats (F64.of_Z 7) (F64.of_Z 7) (F64.of_Z 7) (F64.of_Z 7) 1)
  = ts_max (mkTimerStats (F64.of_Z 7) (F64.of_Z 7) (F64.of_Z 7) (F64.of_Z 7) 1).
Proof.
  exact (proj1 (timer_summary_invariants default_config [F64.of_Z 7] _ eq_refl)).
Defined.

(** *** Packets that commute *)

Lemma insert_ensure_key {A} (zero x : A) (m : gmap string A) (k : string) :
  <[k := x]> (ensure_key zero m k) = <[k := x]> m.
Proof.
  unfold ensure_key. destruct (m !! k); [done|]. apply insert_insert_eq.
Qed.

Lemma at_key_insert_ne {A} (zero x : A) (m : gmap string A) (k j : string) :
  k <> j -> at_key zero (<[k := x]> m) j = at_key zero m j.
Proof. intros H. unfold at_key. by rewrite lookup_insert_ne. Qed.

(** [apply_packet] as one assignment in the map of the kind of the
    packet. *)
Lemma apply_packet_update (ind : Z) (s : Packet) (st : Store) :
  apply_packet ind s st
  = match kind_of s with
    | Timer =>
        mkStore (counters st)
                (<[Bucket s := at_key [] (timers st) (Bucket s)
                                 ++ [observation s]]> (timers st))
                (gauges st)
    | Gauge =>
        mkStore (counters st) (timers st)
                (<[Bucket s :=
                     match strip_prefix "+" (Value s) with
                     | Some rest =>
                         wrap64 (at_key 0 (gauges st) (Bucket s) + fst (Atoi rest))
                     | None =>
                         match strip_prefix "-" (Value s) with
                         | Some rest =>
                             wrap64 (at_key 0 (gauges st) (Bucket s)
                                     - fst (Atoi rest))
                         | None => fst (Atoi (Value s))
                         end
                     end]> (gauges st))
    | Counter =>
        mkStore (<[Bucket s :=
                     wrap64 (at_key 0 (counters st) (Bucket s)
                             + counter_increment ind (Value s) (Sampling s))]>
                   (counters st))
                (timers st) (gauges st)
    end.
Proof.
  unfold apply_packet, kind_of.
  destruct (String.eqb (Modifier s) "ms"); [|destruct (String.eqb (Modifier s) "g")];
    by rewrite insert_ensure_key, at_key_ensure.
Qed.

Lemma wrap64_add_swap (x a b : Z) :
  wrap64 (wrap64 (x + a) + b) = wrap64 (wrap64 (x + b) + a).
Proof. rewrite !wrap64_add_l. f_equal. lia. Qed.

(** X24.  Two packets may be applied in either order, with the same store
    as a result, when they are of different kinds, or for different
    buckets, or both counter packets: the order of arrival only matters
    between two gauge packets, or two timer packets, of one bucket. *)
Theorem packets_commute (ind : Z) (p q : Packet) (st : Store) :
  kind_of p <> kind_of q \/ Bucket p <> Bucket q
  \/ (kind_of p = Counter /\ kind_of q = Counter) ->
  apply_packet ind p (apply_packet ind q st)
  = apply_packet ind q (apply_packet ind p st).
Proof.
  intros H. rewrite !apply_packet_update.
  destruct (kind_of p) eqn:Kp, (kind_of q) eqn:Kq; simpl;
    try reflexivity;
    destruct (decide (Bucket p = Bucket q)) as [Heq|Hne];
    try (destruct H as [H|[H|[H1 H2]]]; congruence);
    try (rewrite !at_key_insert_ne by done;
         f_equal; by apply insert_insert_ne).
  rewrite Heq, !at_key_insert, !insert_insert_eq. do 2 f_equal.
  apply wrap64_add_swap.
Qed.

Lemma packets_commute_witness :
  apply_packet amd64_indefinite (mkPacket "a" "1" "c" (F32.of_Z 1))
    (apply_packet amd64_indefinite (mkPacket "a" "5" "g" (F32.of_Z 1))
       empty_store)
  = apply_packet amd64_indefinite (mkPacket "a" "5" "g" (F32.of_Z 1))
      (apply_packet amd64_indefinite (mkPacket "a" "1" "c" (F32.of_Z 1))
         empty_store).
Proof.
  apply packets_commute. left. vm_compute. discriminate.
Defined.

Lemma apply_packets_app (ind : Z) (ps qs : list Packet) (st : Store) :
  apply_packets ind (ps ++ qs) st
  = apply_packets ind qs (apply_packets ind ps st).
Proof. unfold apply_packets. apply fold_left_app. Qed.

(** X25.  The counts of a window do not depend on the order in which its
    counter packets arrive: two sequences of counter packets that are
    permutations of one another (for any buckets) leave the same store. *)
Theorem counter_packets_order_irrelevant (ind : Z) (ps ps' : list Packet)
    (st : Store) :
  Forall (fun s => kind_of s = Counter) ps ->
  Permutation ps ps' ->
  apply_packets ind ps st = apply_packets ind ps' st.
Proof.
  intros Hall Hperm. revert st Hall.
  induction Hperm as [|x l l' Hp IH|x y l|l l' l'' Hp1 IH1 Hp2 IH2];
    intros st Hall.
  - done.
  - unfold apply_packets. simpl. apply IH. by apply Forall_inv_tail in Hall.
  - unfold apply_packets. simpl. f_equal. apply packets_commute.
    right; right. split.
    + by apply Forall_inv_tail, Forall_inv in Hall.
    + by apply Forall_inv in Hall.
  - rewrite IH1 by done. apply IH2.
    eapply Permutation_Forall; [exact Hp1|exact Hall].
Qed.

Lemma counter_packets_order_irrelevant_witness :
  apply_packets amd64_indefinite
    [mkPacket "a" "1" "c" (F32.of_Z 1); mkPacket "b" "2" "c" (F32.of_Z 1)]
    empty_store
  = apply_packets amd64_indefinite
      [mkPacket "b" "2" "c" (F32.of_Z 1); mkPacket "a" "1" "c" (F32.of_Z 1)]
      empty_store.
Proof.
  apply counter_packets_order_irrelevant.
  - repeat constructor.
  - apply perm_swap.
Defined.
